(** * solarplanets: mean-rate planetary ephemeris (index.mjs)

    A shallow embedding of the exported functions of [index.mjs] and the
    properties stated about them.

    Number model.  A JavaScript Number is modelled by a mathematical real
    ([R]); rounding is not modelled.  An operation that has no real value on
    some finite argument (a quotient or a remainder by zero, the square root
    of a negative number) or that reads an array out of range returns [None];
    every function that uses such an operation lives in the [option] monad.
    A division by a non-zero numeric literal is total and is written with the
    plain [/].  The tangent at a pole is an infinity, as the quotient of a
    non-zero sine by a zero cosine.

    Where rounding decides what the source returns (a sum that rounds up to
    the modulus in [posmod]), the functions concerned are embedded a second
    time on binary64 Numbers, in the module [Binary64] at the end of the
    definitions, and evaluated there. *)

From Stdlib Require Import Floats.
From Stdlib Require Import Reals RNsatz Lra Lia ZArith.
From stdpp Require Import base option list.
From Equations Require Import Equations.

#[local] Open Scope R_scope.

(** ** Primitive operations of the host language *)

#[global] Instance Rlt_decision : RelDecision Rlt := Rlt_dec.
#[global] Instance Req_decision : EqDecision R := Req_dec_T.

(** [Math.floor], as a Number. *)
Definition Math_floor (x : R) : R := IZR (Zfloor x).

(** The integer closest to [x] among those between [0] and [x]. *)
Definition Ztrunc (x : R) : Z := if decide (x < 0) then Zceil x else Zfloor x.

(** [a / b] with a computed divisor. *)
Definition js_div (a b : R) : option R :=
  if decide (b = 0) then None else Some (a / b).

(** [a % b]: the remainder has the sign of the dividend, the quotient is
    truncated toward zero. *)
Definition js_rem (a b : R) : option R :=
  if decide (b = 0) then None else Some (a - b * IZR (Ztrunc (a / b))).

(** [Math.sqrt]. *)
Definition Math_sqrt (x : R) : option R :=
  if decide (x < 0) then None else Some (sqrt x).

(** A Number that may be an infinity. *)
Inductive xnumber : Type :=
  | Fin (r : R)
  | Inf (negative : bool).

(** [Math.tan]: the quotient of the sine by the cosine; at a pole, where the
    cosine is zero and the sine is not, an infinity with the sign of the
    sine. *)
Definition Math_tan (x : R) : xnumber :=
  if decide (cos x = 0) then Inf (bool_decide (sin x < 0)) else Fin (tan x).

(** [t * s] for a possibly infinite [t]: an infinity times zero is [NaN]. *)
Definition xmul (t : xnumber) (s : R) : option xnumber :=
  match t with
  | Fin r => Some (Fin (r * s))
  | Inf negative =>
      if decide (s = 0) then None
      else Some (Inf (xorb negative (bool_decide (s < 0))))
  end.

(** [Math.atan2 y x], the angle of the point [(x, y)] in [(-PI, PI]]. *)
Definition Math_atan2 (y x : R) : R :=
  if decide (0 < x) then atan (y / x)
  else if decide (x < 0) then
    (if decide (y < 0) then atan (y / x) - PI else atan (y / x) + PI)
  else if decide (0 < y) then PI / 2
  else if decide (y < 0) then - (PI / 2)
  else 0.

(** [Math.atan2 y x] for a possibly infinite [y]: an infinite ordinate over
    a finite abscissa is a quarter turn. *)
Definition Math_atan2x (y : xnumber) (x : R) : R :=
  match y with
  | Fin y => Math_atan2 y x
  | Inf negative => if negative then - (PI / 2) else PI / 2
  end.

(** ** Time conversion *)

Definition MU_SUN_KM3PS2 : R := 1.327e11.

(** The sum [f + 1.0] is exact on doubles for [f <= -1] below [2^53]; for a
    negative [f] closer to zero it is rounded. *)
Definition INT (f : R) : R :=
  if decide (f < 0) then Math_floor (f + 1.0) else Math_floor f.

Definition getUtFromTimevec (h m s : R) : R := h + m / 60 + s / 3600.

(** The remainder [c] is exact on doubles; the sum [c + b] is rounded there
    ([Binary64.posmod]). *)
Definition posmod (a b : R) : option R :=
  c ← js_rem a b;
  Some (if decide (c < 0) then c + b else c).

Definition getJ0FromDatevec (y m d : R) : R :=
  367 * y - INT (7 * (y + INT ((m + 9) / 12)) / 4) + INT (275 * m / 9) + d
  + 1721013.5.

Definition getJdFromDateTime (J0 UT : R) : R := J0 + UT / 24.

Definition getJulianCenturies (JD : R) : R := (JD - 2451545) / 36525.

(** ** Element interpolation and orbit geometry *)

Definition getCurrentElements (Q0 dQ T0 : R) : R := Q0 + dQ * T0.

Definition getAngularMomentum (a_km e mu_km3ps2 : R) : option R :=
  Math_sqrt (mu_km3ps2 * a_km * (1 - e * e)).

Definition getAopFromLopRaan (lop_rad raan_rad : R) : option R :=
  posmod (lop_rad - raan_rad) (2 * PI).

Definition getMaFromMlLop (ml_rad lop_rad : R) : option R :=
  posmod (ml_rad - lop_rad) (2 * PI).

(** ** Anomaly solver *)

(** The mutable locals of [getEaFromMaE]. *)
Record solver_state : Type := SolverState {
  E_rad : R;
  isConverged : bool;
  isOverrun : bool;
  n : nat
}.

Definition nMax : nat := 1000.
Definition tol : R := 1e-8.

(** The guess the loop starts from. *)
Definition initial_guess (M_rad e : R) : R :=
  if decide (M_rad < PI) then M_rad + 0.5 * e else M_rad - 0.5 * e.

Definition solver_init (M_rad e : R) : solver_state :=
  {| E_rad := initial_guess M_rad e;
     isConverged := false; isOverrun := false; n := 0 |}.

(** The loop guard [!isConverged && !isOverrun]. *)
Definition solver_guard (st : solver_state) : bool :=
  negb (isConverged st) && negb (isOverrun st).

(** One pass through the body of the [while] loop. *)
Definition solver_body (M_rad e : R) (st : solver_state)
  : option solver_state :=
  let f := E_rad st - e * sin (E_rad st) - M_rad in
  let df := 1 - e * cos (E_rad st) in
  r ← js_div f df;
  let n' := S (n st) in
  let conv := bool_decide (Rabs r < tol) in
  let over := bool_decide (nMax < n')%nat in
  Some {| E_rad := if negb conv then E_rad st - r else E_rad st;
          isConverged := conv; isOverrun := over; n := n' |}.

(** Passes still allowed from a state: none once the guard is off. *)
Definition solver_measure (st : solver_state) : nat :=
  if solver_guard st then S (S nMax - n st) else 0.

Lemma solver_body_measure (M_rad e : R) (st st' : solver_state) :
  solver_guard st = true ->
  solver_body M_rad e st = Some st' ->
  (solver_measure st' < solver_measure st)%nat.
Proof.
  intros Hg Hb. unfold solver_measure at 2. rewrite Hg.
  unfold solver_body, js_div in Hb.
  destruct (decide (1 - e * cos (E_rad st) = 0)) as [|_]; [discriminate|].
  simpl in Hb. injection Hb as <-.
  unfold solver_measure, solver_guard; simpl.
  destruct (bool_decide (Rabs _ < tol)); simpl; [lia|].
  case_bool_decide; simpl; lia.
Qed.

(** A value together with the equation that names it. *)
Definition inspect {A : Type} (x : A) : {y : A | x = y} := exist _ x eq_refl.

(** The [while] loop, by recursion on the passes still allowed. *)
Equations solver_loop (M_rad e : R) (st : solver_state)
  : option solver_state by wf (solver_measure st) lt :=
solver_loop M_rad e st with inspect (solver_guard st) := {
  | exist _ false _ => Some st
  | exist _ true Hg with inspect (solver_body M_rad e st) := {
    | exist _ None _ => None
    | exist _ (Some st') Hb => solver_loop M_rad e st' } }.
Next Obligation.
  eapply solver_body_measure; eassumption.
Qed.

Definition getEaFromMaE (M_rad e : R) : option R :=
  st ← solver_loop M_rad e (solver_init M_rad e);
  Some (E_rad st).

Definition getTaFromEaE (E_rad e : R) : option R :=
  let t := Math_tan (0.5 * E_rad) in
  s1 ← Math_sqrt (1 + e);
  y ← xmul t s1;
  s2 ← Math_sqrt (1 - e);
  let ta_rad := 2.0 * Math_atan2x y s2 in
  posmod ta_rad (2 * PI).

(** ** Perifocal state *)

Definition getRpqwFromHETht (h_km2ps e tht_rad mu_km3ps2 : R)
  : option (list R) :=
  c ← js_div (h_km2ps * h_km2ps) (mu_km3ps2 * (1 + e * cos tht_rad));
  Some [c * cos tht_rad; c * sin tht_rad; 0].

Definition getVpqwFromHETht (h_km2ps e tht_rad mu_km3ps2 : R)
  : option (list R) :=
  c ← js_div mu_km3ps2 h_km2ps;
  Some [c * - sin tht_rad; c * (e + cos tht_rad); 0].

(** ** Linear algebra on arrays

    A vector is an array of Numbers ([list R]), a matrix an array of rows.
    Reading an index that is out of range yields [undefined] in the source,
    which either raises a [TypeError] (when it is indexed again) or poisons
    the arithmetic it enters; both are [None] here, so [Some v] always means
    that the source returns exactly the array of Numbers [v]. *)

Definition r1 (rad : R) : list (list R) :=
  let c := cos rad in
  let s := sin rad in
  [[1; 0; 0]; [0; c; - s]; [0; s; c]].

Definition r3 (rad : R) : list (list R) :=
  let c := cos rad in
  let s := sin rad in
  [[c; - s; 0]; [s; c; 0]; [0; 0; 1]].

Definition R1 (rad : R) : list (list R) :=
  let c := cos rad in
  let s := sin rad in
  [[1; 0; 0]; [0; c; s]; [0; - s; c]].

Definition R3 (rad : R) : list (list R) :=
  let c := cos rad in
  let s := sin rad in
  [[c; s; 0]; [- s; c; 0]; [0; 0; 1]].

(** [for (let i = 0; i < hi; i += 1) body], threading the loop state. *)
Definition for_range {S : Type} (hi : nat) (body : nat -> S -> option S)
  (s : S) : option S :=
  foldl (fun acc i => s ← acc; body i s) (Some s) (seq 0 hi).

(** [M[i][j]]. *)
Definition entry (M : list (list R)) (i j : nat) : option R :=
  row ← M !! i; row !! j.

Definition getDotProd (lhs rhs : list R) : option R :=
  for_range (length lhs)
    (fun i sum => a ← lhs !! i; b ← rhs !! i; Some (sum + a * b)) 0.

(** [[M[i][0], M[i][1], M[i][2]]] and [[M[0][j], M[1][j], M[2][j]]]. *)
Definition row3 (M : list (list R)) (i : nat) : option (list R) :=
  a ← entry M i 0; b ← entry M i 1; c ← entry M i 2; Some [a; b; c].
Definition col3 (M : list (list R)) (j : nat) : option (list R) :=
  a ← entry M 0 j; b ← entry M 1 j; c ← entry M 2 j; Some [a; b; c].

Definition getMatVec (lhs : list (list R)) (rhs : list R) : option (list R) :=
  r1 ← row3 lhs 0; r2 ← row3 lhs 1; r3 ← row3 lhs 2;
  x ← getDotProd r1 rhs; y ← getDotProd r2 rhs; z ← getDotProd r3 rhs;
  Some [x; y; z].

Definition getMatMul (lhs rhs : list (list R)) : option (list (list R)) :=
  r1 ← row3 lhs 0; r2 ← row3 lhs 1; r3 ← row3 lhs 2;
  c1 ← col3 rhs 0; c2 ← col3 rhs 1; c3 ← col3 rhs 2;
  m11 ← getDotProd r1 c1; m12 ← getDotProd r1 c2; m13 ← getDotProd r1 c3;
  m21 ← getDotProd r2 c1; m22 ← getDotProd r2 c2; m23 ← getDotProd r2 c3;
  m31 ← getDotProd r3 c1; m32 ← getDotProd r3 c2; m33 ← getDotProd r3 c3;
  Some [[m11; m12; m13]; [m21; m22; m23]; [m31; m32; m33]].

Definition getQeci2pqw (raan_rad inc_rad aop_rad : R)
  : option (list (list R)) :=
  R31 ← getMatMul (R3 aop_rad) (R1 inc_rad);
  getMatMul R31 (R3 raan_rad).

(** The assignment [a[i] = x] on an array of Numbers: in range it overwrites,
    at the end it appends, further out it would leave holes. *)
Definition array_set (a : list R) (i : nat) (x : R) : option (list R) :=
  if decide (i < length a)%nat then Some (<[i := x]> a)
  else if decide (i = length a) then Some (a ++ [x])
  else None.

(** The assignment [Mt[j][i] = x]. *)
Definition store (Mt : list (list R)) (j i : nat) (x : R)
  : option (list (list R)) :=
  row ← Mt !! j; row' ← array_set row i x; Some (<[j := row']> Mt).

Definition transpose (M : list (list R)) : option (list (list R)) :=
  let I := length M in
  row0 ← M !! 0%nat;
  let J := length row0 in
  let Mt := replicate J (replicate I 0) in
  for_range I (fun i =>
    for_range J (fun j Mt => x ← entry M i j; store Mt j i x)) Mt.

Definition getQpqw2eci (raan_rad inc_rad aop_rad : R)
  : option (list (list R)) :=
  Qeci2pqw ← getQeci2pqw raan_rad inc_rad aop_rad;
  transpose Qeci2pqw.

(** ** Orchestrator *)

(** The fields read from the element record. *)
Record planetaryOrbitalElements : Type := {
  a_au : R; da_au : R;
  e : R; de : R;
  inc_deg : R; dinc_sec : R;
  raan_deg : R; draan_sec : R;
  lop_deg : R; dlop_sec : R;
  ml_deg : R; dml_sec : R
}.

(** The UTC getters read from the [Date]. *)
Record Date : Type := {
  getUTCFullYear : R; getUTCMonth : R; getUTCDate : R;
  getUTCHours : R; getUTCMinutes : R; getUTCSeconds : R;
  getUTCMilliseconds : R
}.

Definition d2r : R := PI / 180.
Definition au2km : R := 1.49597871e8.

(** Julian centuries [T0] of the date. *)
Definition julian_centuries_of (dt : Date) : R :=
  let y := getUTCFullYear dt in
  let m := getUTCMonth dt + 1 in
  let d := getUTCDate dt in
  let H := getUTCHours dt in
  let M := getUTCMinutes dt in
  let S := getUTCSeconds dt + getUTCMilliseconds dt * 1e-3 in
  let J0 := getJ0FromDatevec y m d in
  let UT := getUtFromTimevec H M S in
  let JD := getJdFromDateTime J0 UT in
  getJulianCenturies JD.

(** The local [a_km] of the orchestrator. *)
Definition interpolated_a_km (p : planetaryOrbitalElements) (T0 : R) : R :=
  getCurrentElements (a_au p * au2km) (da_au p * au2km) T0.

Definition getRvFromElementsDatetime (p : planetaryOrbitalElements)
  (dt : Date) : option (list R * list R) :=
  let T0 := julian_centuries_of dt in
  let a_km := interpolated_a_km p T0 in
  let e := getCurrentElements (e p) (de p) T0 in
  inc_rad ← posmod (getCurrentElements (inc_deg p * d2r)
                      (dinc_sec p / 3600 * d2r) T0) (2 * PI);
  raan_rad ← posmod (getCurrentElements (raan_deg p * d2r)
                       (draan_sec p / 3600 * d2r) T0) (2 * PI);
  lop_rad ← posmod (getCurrentElements (lop_deg p * d2r)
                      (dlop_sec p / 3600 * d2r) T0) (2 * PI);
  ml_rad ← posmod (getCurrentElements (ml_deg p * d2r)
                     (dml_sec p / 3600 * d2r) T0) (2 * PI);
  h_km2ps ← getAngularMomentum a_km e MU_SUN_KM3PS2;
  aop_rad ← getAopFromLopRaan lop_rad raan_rad;
  M_rad ← getMaFromMlLop ml_rad lop_rad;
  E_rad ← getEaFromMaE M_rad e;
  tht_rad ← getTaFromEaE E_rad e;
  rPqw_km ← getRpqwFromHETht h_km2ps e tht_rad MU_SUN_KM3PS2;
  vPqw_kmps ← getVpqwFromHETht h_km2ps e tht_rad MU_SUN_KM3PS2;
  Qpqw2eci ← getQpqw2eci raan_rad inc_rad aop_rad;
  rHcec_km ← getMatVec Qpqw2eci rPqw_km;
  vHcec_kmps ← getMatVec Qpqw2eci vPqw_kmps;
  Some (rHcec_km, vHcec_kmps).

(** ** Notions used to state the properties *)

(** The Euclidean norm of a vector, with the source's dot product. *)
Definition norm (v : list R) : option R := d ← getDotProd v v; Math_sqrt d.

(** The 3x3 identity matrix. *)
Definition identity3 : list (list R) := [[1; 0; 0]; [0; 1; 0]; [0; 0; 1]].

(** A matrix of [I] rows of [J] Numbers each. *)
Definition rect (I J : nat) (M : list (list R)) : Prop :=
  length M = I /\ Forall (fun row => length row = J) M.

(** The Newton-Raphson correction [f / df] at [E], and the update it gives. *)
Definition correction (M_rad e E : R) : R :=
  (E - e * sin E - M_rad) / (1 - e * cos E).
Definition newton (M_rad e E : R) : R := E - correction M_rad e E.

(** The function whose roots [d] give the solver a cycle [0, -d, 0, ...]. *)
Definition kepler_cycle (x : R) : R := x * cos x - sin x - 1 / 2.

(** ** Calendar, arrays and sample inputs used to state further properties *)

(** The Gregorian calendar. *)
Definition leap_year (y : Z) : bool :=
  ((y mod 4 =? 0) && negb (y mod 100 =? 0) || (y mod 400 =? 0))%Z.

Definition days_in_month (y m : Z) : Z :=
  if (m =? 2)%Z then (if leap_year y then 29 else 28)%Z
  else if ((m =? 4) || (m =? 6) || (m =? 9) || (m =? 11))%Z then 30%Z
  else 31%Z.

(** The calendar day after [y-m-d]. *)
Definition next_day (ymd : Z * Z * Z) : Z * Z * Z :=
  let '(y, m, d) := ymd in
  if (d <? days_in_month y m)%Z then (y, m, (d + 1)%Z)
  else if (m <? 12)%Z then (y, (m + 1)%Z, 1%Z)
  else ((y + 1)%Z, 1%Z, 1%Z).

(** [getJ0FromDatevec] on whole calendar fields. *)
Definition J0_of (ymd : Z * Z * Z) : R :=
  let '(y, m, d) := ymd in getJ0FromDatevec (IZR y) (IZR m) (IZR d).

(** The [Date] of a calendar day and a time of day (months count from 0). *)
Definition date_of (ymd : Z * Z * Z) (H M S ms : R) : Date :=
  let '(y, m, d) := ymd in
  {| getUTCFullYear := IZR y; getUTCMonth := IZR (m - 1); getUTCDate := IZR d;
     getUTCHours := H; getUTCMinutes := M; getUTCSeconds := S;
     getUTCMilliseconds := ms |}.

(** The sum of the products of corresponding entries. *)
Definition dot (u v : list R) : R := foldr Rplus 0 (zip_with Rmult u v).

(** The leading 3x3 entries of [M] are Numbers. *)
Definition has_block3 (M : list (list R)) : Prop :=
  forall i j, (i < 3)%nat -> (j < 3)%nat -> is_Some (entry M i j).

(** A circular orbit of one astronomical unit in the reference plane, with
    no drift. *)
Definition circular_elements : planetaryOrbitalElements :=
  {| a_au := 1; da_au := 0; e := 0; de := 0;
     inc_deg := 0; dinc_sec := 0; raan_deg := 0; draan_sec := 0;
     lop_deg := 0; dlop_sec := 0; ml_deg := 0; dml_sec := 0 |}.

(** 2000-01-01T12:00:00Z. *)
Definition epoch_date : Date :=
  {| getUTCFullYear := 2000; getUTCMonth := 0; getUTCDate := 1;
     getUTCHours := 12; getUTCMinutes := 0; getUTCSeconds := 0;
     getUTCMilliseconds := 0 |}.

(** ** The functions on binary64 Numbers

    The remainder and [posmod] as the source computes them on doubles, each
    operation rounded to nearest.  [Math.tan] and [Math.atan2], whose results
    the language leaves to the implementation, are parameters. *)

Module Binary64.

#[local] Open Scope float_scope.

(** [Math.PI]. *)
Definition Math_PI : float := 0x1.921fb54442d18p+1.

(** [a % b]: the exact remainder of the truncated quotient, which is a
    double; it has the sign of the dividend. *)
Definition rem (a b : float) : float :=
  match Prim2SF a, Prim2SF b with
  | S754_nan, _ | _, S754_nan => nan
  | S754_infinity _, _ => nan
  | _, S754_zero _ => nan
  | S754_zero _, _ => a
  | S754_finite _ _ _, S754_infinity _ => a
  | S754_finite sa ma ea, S754_finite _ mb eb =>
      let e := Z.min ea eb in
      let A := (Zpos ma * 2 ^ (ea - e))%Z in
      let B := (Zpos mb * 2 ^ (eb - e))%Z in
      match Z.rem A B with
      | Z0 => if sa then neg_zero else zero
      | r =>
          SF2Prim
            (binary_normalize prec emax (if sa then (- r)%Z else r) e false)
      end
  end.

Definition posmod (a b : float) : float :=
  let c := rem a b in
  if c <? 0 then c + b else c.

Section host.

Variable Math_tan : float -> float.
Variable Math_atan2 : float -> float -> float.

Definition getTaFromEaE (E_rad e : float) : float :=
  let ta_rad :=
    2.0 * Math_atan2 (Math_tan (0.5 * E_rad) * PrimFloat.sqrt (1 + e))
            (PrimFloat.sqrt (1 - e)) in
  posmod ta_rad (2 * Math_PI).

End host.

End Binary64.

(** * Properties *)

(** ** The integer part [INT] and the Julian day number *)

Lemma Math_floor_eq (z : Z) (x : R) :
  IZR z <= x < IZR z + 1 -> Math_floor x = IZR z.
Proof. intros H. unfold Math_floor. now rewrite (Zfloor_eq z x H). Qed.

Lemma INT_nonneg (f : R) : 0 <= f -> INT f = Math_floor f.
Proof. intros H. unfold INT. destruct (decide (f < 0)); [lra | reflexivity]. Qed.

Lemma INT_neg (f : R) : f < 0 -> INT f = Math_floor f + 1.
Proof.
  intros H. unfold INT. destruct (decide (f < 0)); [| lra].
  unfold Math_floor. replace (f + 1.0) with (f + IZR 1) by lra.
  now rewrite Zfloor_addz, plus_IZR.
Qed.

(** Off the negative integers [INT] is truncation toward zero. *)
Lemma INT_trunc (f : R) :
  0 <= f \/ Math_floor f <> f -> INT f = IZR (Ztrunc f).
Proof.
  intros H. unfold Ztrunc. destruct (decide (f < 0)) as [Hneg | Hpos].
  - destruct H as [H | H]; [lra |]. rewrite INT_neg by assumption.
    unfold Math_floor in *. rewrite <- plus_IZR. f_equal.
    symmetry. apply Zceil_eq. rewrite plus_IZR.
    pose proof (Zfloor_bound f). lra.
  - apply INT_nonneg. lra.
Qed.

(** On a negative integer [INT] is one more than the integer itself. *)
Lemma INT_neg_integer (z : Z) : (z < 0)%Z -> INT (IZR z) = IZR z + 1.
Proof.
  intros H. rewrite INT_neg by (apply IZR_lt in H; lra).
  unfold Math_floor. now rewrite ZfloorZ.
Qed.

(** C1. [INT] is meant to truncate toward zero: it does so on every
    non-negative number ([floor f]) and on every negative non-integer
    ([floor f + 1]), but on a negative integer it returns the integer plus
    one: [INT(-1)] is [0] and [INT(-7)] is [-6], where truncation gives [-1]
    and [-7]; through it [getJ0FromDatevec(-4, 1, 1)] is one day short of the
    value of its formula. *)
Theorem INT_negative_integer_off_by_one :
  INT (-1) = 0 /\ IZR (Ztrunc (-1)) = -1 /\
  INT (-7) = -6 /\ IZR (Ztrunc (-7)) = -7 /\
  getJ0FromDatevec (-4) 1 1 = 1719582.5 /\
  367 * -4 - IZR (Ztrunc (7 * (-4 + IZR (Ztrunc ((1 + 9) / 12))) / 4))
    + IZR (Ztrunc (275 * 1 / 9)) + 1 + 1721013.5 = 1719583.5.
Proof.
  assert (T1 : Ztrunc (-1) = (-1)%Z).
  { unfold Ztrunc. destruct (decide (-1 < 0)); [| lra].
    apply Zceil_eq. lra. }
  assert (T7 : Ztrunc (-7) = (-7)%Z).
  { unfold Ztrunc. destruct (decide (-7 < 0)); [| lra].
    apply Zceil_eq. lra. }
  assert (I1 : INT (-1) = 0).
  { rewrite (INT_neg_integer (-1)) by lia. lra. }
  assert (I7 : INT (-7) = -6).
  { rewrite (INT_neg_integer (-7)) by lia. lra. }
  assert (Im : INT ((1 + 9) / 12) = 0).
  { rewrite INT_nonneg by lra. apply (Math_floor_eq 0). lra. }
  assert (Id : INT (275 * 1 / 9) = 30).
  { rewrite INT_nonneg by lra. apply (Math_floor_eq 30). lra. }
  assert (Tm : Ztrunc ((1 + 9) / 12) = 0%Z).
  { unfold Ztrunc. destruct (decide ((1 + 9) / 12 < 0)); [lra |].
    apply Zfloor_eq. lra. }
  assert (Td : Ztrunc (275 * 1 / 9) = 30%Z).
  { unfold Ztrunc. destruct (decide (275 * 1 / 9 < 0)); [lra |].
    apply Zfloor_eq. lra. }
  repeat split.
  - exact I1.
  - now rewrite T1.
  - exact I7.
  - now rewrite T7.
  - unfold getJ0FromDatevec. rewrite Im, Id.
    replace (7 * (-4 + 0) / 4) with (-7) by lra. rewrite I7. lra.
  - rewrite Tm, Td. replace (7 * (-4 + 0) / 4) with (-7) by lra.
    rewrite T7. lra.
Qed.

(** C7. The Julian day numbers of 2004-05-12 and of 1957-10-04. *)
Theorem getJ0FromDatevec_examples :
  getJ0FromDatevec 2004 5 12 = 2453137.5 /\
  getJ0FromDatevec 1957 10 4 = 2436115.5.
Proof.
  unfold getJ0FromDatevec. split.
  - assert (Im : INT ((5 + 9) / 12) = 1).
    { rewrite INT_nonneg by lra. apply (Math_floor_eq 1). lra. }
    rewrite Im.
    assert (Iy : INT (7 * (2004 + 1) / 4) = 3508).
    { rewrite INT_nonneg by lra. apply (Math_floor_eq 3508). lra. }
    assert (Id : INT (275 * 5 / 9) = 152).
    { rewrite INT_nonneg by lra. apply (Math_floor_eq 152). lra. }
    rewrite Iy, Id. lra.
  - assert (Im : INT ((10 + 9) / 12) = 1).
    { rewrite INT_nonneg by lra. apply (Math_floor_eq 1). lra. }
    rewrite Im.
    assert (Iy : INT (7 * (1957 + 1) / 4) = 3426).
    { rewrite INT_nonneg by lra. apply (Math_floor_eq 3426). lra. }
    assert (Id : INT (275 * 10 / 9) = 305).
    { rewrite INT_nonneg by lra. apply (Math_floor_eq 305). lra. }
    rewrite Iy, Id. lra.
Qed.

(** ** Remainder and positive modulus *)

Lemma Ztrunc_bound (x : R) :
  (0 <= x -> IZR (Ztrunc x) <= x < IZR (Ztrunc x) + 1) /\
  (x < 0 -> x <= IZR (Ztrunc x) < x + 1).
Proof.
  unfold Ztrunc. destruct (decide (x < 0)); split; intros H; try lra.
  - pose proof (Zceil_bound x). lra.
  - apply Zfloor_bound.
Qed.

(** For a positive divisor the remainder lies strictly between [-b] and [b]
    and is never of the sign opposite to the dividend's. *)
Lemma js_rem_pos (a b : R) :
  0 < b ->
  exists c, js_rem a b = Some c /\ - b < c < b /\
            (0 <= a -> 0 <= c) /\ (a < 0 -> c <= 0).
Proof.
  intros Hb. unfold js_rem. destruct (decide (b = 0)); [lra |].
  eexists; split; [reflexivity |].
  assert (Hq : b * (a / b) = a) by (field; lra).
  destruct (Ztrunc_bound (a / b)) as [Hp Hn].
  destruct (Rle_or_lt 0 a) as [Ha | Ha].
  - assert (0 <= a / b).
    { unfold Rdiv. apply Rmult_le_pos; [lra |].
      left. now apply Rinv_0_lt_compat. }
    specialize (Hp H). nra.
  - assert (a / b < 0).
    { unfold Rdiv. apply Rmult_neg_pos; [lra |]. now apply Rinv_0_lt_compat. }
    specialize (Hn H). nra.
Qed.

(** Over the reals, for a positive modulus [b], [posmod a b] lies in
    [[0, b)], whatever the sign of [a]. *)
Lemma posmod_range (a b : R) :
  0 < b -> exists c, posmod a b = Some c /\ 0 <= c < b.
Proof.
  intros Hb. destruct (js_rem_pos a b Hb) as (c & Hc & Hr & _).
  unfold posmod. rewrite Hc. simpl.
  destruct (decide (c < 0)); eexists; (split; [reflexivity | lra]).
Qed.


(** C5. [posmod] is documented to return a Number of [[0, b)], but on
    doubles the sum [c + b] of a tiny negative remainder and the modulus
    rounds to the modulus: [posmod(-1e-17, 1)] is [1], which is not below
    [1]; the remainder itself, [-1e-17], is exact. *)
Theorem posmod_returns_modulus :
  Binary64.rem (-0x1.70ef54646d497p-57) 1 = (-0x1.70ef54646d497p-57)%float /\
  Binary64.posmod (-0x1.70ef54646d497p-57) 1 = 1%float /\
  (Binary64.posmod (-0x1.70ef54646d497p-57) 1 <? 1)%float = false.
Proof. repeat split; reflexivity. Qed.

(** ** Element interpolation *)

(** C8. Linear extrapolation commutes with a change of unit: scaling the
    constant and the rate by [k] scales the result by [k]; so the
    orchestrator's [a_km], interpolated from elements already converted to
    kilometres, is the interpolation in astronomical units converted
    afterwards. *)
Theorem getCurrentElements_scale (k Q0 dQ T : R)
  (p : planetaryOrbitalElements) :
  getCurrentElements (k * Q0) (k * dQ) T = k * getCurrentElements Q0 dQ T /\
  interpolated_a_km p T = getCurrentElements (a_au p) (da_au p) T * au2km.
Proof. unfold interpolated_a_km, getCurrentElements. split; ring. Qed.

(** ** Perifocal position *)

Lemma one_plus_e_cos_pos (e x : R) : 0 <= e < 1 -> 0 < 1 - e <= 1 + e * cos x.
Proof. intros He. pose proof (COS_bound x) as [Hc _]. nra. Qed.

(** C6. For an eccentricity of [[0, 1)] and a positive gravitational
    parameter, [getRpqwFromHETht] returns a vector of three Numbers whose
    third component is zero and whose Euclidean norm is
    [(h^2 / mu) / (1 + e cos nu)]. *)
Theorem getRpqwFromHETht_norm (h e nu mu : R) :
  0 <= e < 1 -> 0 < mu ->
  exists x y,
    getRpqwFromHETht h e nu mu = Some [x; y; 0] /\
    norm [x; y; 0] = Some ((h * h / mu) / (1 + e * cos nu)).
Proof.
  intros He Hmu. pose proof (one_plus_e_cos_pos e nu He) as Hd.
  unfold getRpqwFromHETht, js_div.
  destruct (decide (mu * (1 + e * cos nu) = 0)) as [Hz | _]; [nra |].
  simpl. do 2 eexists. split; [reflexivity |].
  set (c := h * h / (mu * (1 + e * cos nu))).
  assert (Hc : 0 <= c).
  { unfold c, Rdiv. apply Rmult_le_pos; [nra |].
    left. apply Rinv_0_lt_compat. nra. }
  unfold norm, getDotProd, for_range. simpl.
  assert (Hsq : 0 + c * cos nu * (c * cos nu) + c * sin nu * (c * sin nu)
                + 0 * 0 = c * c).
  { pose proof (sin2_cos2 nu) as Hs. unfold Rsqr in Hs. nra. }
  rewrite Hsq. unfold Math_sqrt.
  destruct (decide (c * c < 0)); [nra |].
  rewrite sqrt_square by assumption.
  f_equal. unfold c. field. lra.
Qed.

Lemma getRpqwFromHETht_norm_witness :
  exists x y,
    getRpqwFromHETht 2 0 0 1 = Some [x; y; 0] /\
    norm [x; y; 0] = Some ((2 * 2 / 1) / (1 + 0 * cos 0)).
Proof. apply (getRpqwFromHETht_norm 2 0 0 1); lra. Defined.

(** ** True anomaly *)

Lemma two_PI_pos : 0 < 2 * PI.
Proof. pose proof PI_RGT_0. lra. Qed.



(** ** Counted loops and array updates *)

Section for_range.
Context {S : Type} (body : nat -> S -> option S).

Lemma for_range_S (hi : nat) (s : S) :
  for_range (Datatypes.S hi) body s = for_range hi body s ≫= body hi.
Proof.
  unfold for_range. rewrite seq_S, foldl_app. simpl. reflexivity.
Qed.

(** Loop invariant rule. *)
Lemma for_range_invariant (P : nat -> S -> Prop) (hi : nat) (s : S) :
  P 0%nat s ->
  (forall i s, (i < hi)%nat -> P i s ->
               exists s', body i s = Some s' /\ P (Datatypes.S i) s') ->
  exists s', for_range hi body s = Some s' /\ P hi s'.
Proof.
  intros H0 Hstep. induction hi as [| k IH].
  - exists s. split; [reflexivity | assumption].
  - destruct IH as (s1 & Hs1 & HP1).
    { intros i s0 Hi. apply Hstep. lia. }
    destruct (Hstep k s1) as (s2 & Hs2 & HP2); [lia | assumption |].
    exists s2. split; [| assumption].
    rewrite for_range_S, Hs1. exact Hs2.
Qed.
End for_range.

Lemma entry_is_Some (I J : nat) (M : list (list R)) (i j : nat) :
  rect I J M -> (i < I)%nat -> (j < J)%nat -> is_Some (entry M i j).
Proof.
  intros [HI HJ] Hi Hj. unfold entry.
  destruct (lookup_lt_is_Some_2 M i) as [row Hrow]; [lia |].
  rewrite Hrow. simpl. apply lookup_lt_is_Some_2.
  rewrite Forall_lookup in HJ. rewrite (HJ i row Hrow). lia.
Qed.

Lemma rect_ext (I J : nat) (A B : list (list R)) :
  rect I J A -> rect I J B ->
  (forall i j, (i < I)%nat -> (j < J)%nat -> entry A i j = entry B i j) ->
  A = B.
Proof.
  intros [HA HAr] [HB HBr] Hent.
  apply (list_eq_same_length A B I); [assumption .. |].
  intros i ra rb Hi Hra Hrb.
  rewrite Forall_lookup in HAr, HBr.
  apply (list_eq_same_length ra rb J); [eauto .. |].
  intros j x y Hj Hx Hy.
  specialize (Hent i j Hi Hj). unfold entry in Hent.
  rewrite Hra, Hrb in Hent. simpl in Hent. congruence.
Qed.

Lemma store_spec (J I : nat) (Mt : list (list R)) (j i : nat) (x : R) :
  rect J I Mt -> (j < J)%nat -> (i < I)%nat ->
  exists Mt', store Mt j i x = Some Mt' /\ rect J I Mt' /\
    entry Mt' j i = Some x /\
    (forall j' i', (j', i') <> (j, i) -> entry Mt' j' i' = entry Mt j' i').
Proof.
  intros [HJ HI] Hj Hi. unfold store.
  destruct (lookup_lt_is_Some_2 Mt j) as [row Hrow]; [lia |].
  rewrite Hrow. simpl.
  assert (Hlen : length row = I).
  { rewrite Forall_lookup in HI. eauto. }
  unfold array_set. destruct (decide (i < length row)%nat); [| lia]. simpl.
  eexists. split; [reflexivity |]. split; [| split].
  - split; [now rewrite length_insert |].
    apply Forall_insert; [assumption |]. now rewrite length_insert.
  - unfold entry. rewrite list_lookup_insert_eq by lia. simpl.
    apply list_lookup_insert_eq. lia.
  - intros j' i' Hne. unfold entry.
    destruct (decide (j' = j)) as [-> | Hjj].
    + rewrite list_lookup_insert_eq by lia. rewrite Hrow. simpl.
      apply list_lookup_insert_ne. congruence.
    + now rewrite list_lookup_insert_ne by congruence.
Qed.

(** ** Transposition *)

Lemma rect_replicate (J I : nat) (x : R) : rect J I (replicate J (replicate I x)).
Proof.
  split; [apply length_replicate |].
  apply Forall_replicate. apply length_replicate.
Qed.

Lemma transpose_rect (I J : nat) (M : list (list R)) :
  rect I J M -> (0 < I)%nat ->
  exists Mt, transpose M = Some Mt /\ rect J I Mt /\
    (forall i j, (i < I)%nat -> (j < J)%nat -> entry Mt j i = entry M i j).
Proof.
  intros HM HI0. pose proof HM as [HI HJ]. unfold transpose.
  destruct (lookup_lt_is_Some_2 M 0) as [row0 Hrow0]; [lia |].
  rewrite Hrow0. simpl.
  assert (Hlen0 : length row0 = J).
  { rewrite Forall_lookup in HJ. eauto. }
  rewrite Hlen0, HI.
  apply (for_range_invariant _
    (fun k Mt => rect J I Mt /\
       (forall i j, (i < k)%nat -> (j < J)%nat -> entry Mt j i = entry M i j))).
  - split; [apply rect_replicate |]. intros i j Hi. lia.
  - intros k Mt Hk [HMt Hdone].
    destruct (for_range_invariant
      (fun j Mt => x ← entry M k j; store Mt j k x)
      (fun l Mt => rect J I Mt /\
         (forall i j, (i < k)%nat -> (j < J)%nat ->
                      entry Mt j i = entry M i j) /\
         (forall j, (j < l)%nat -> entry Mt j k = entry M k j))
      J Mt) as (Mt' & HMt' & Hr & Hold & Hnew).
    + split; [assumption |]. split; [assumption |]. intros j Hj. lia.
    + intros j Mt1 Hj (Hr1 & Hold1 & Hnew1).
      destruct (entry_is_Some I J M k j HM Hk Hj) as [x Hx].
      rewrite Hx. simpl.
      destruct (store_spec J I Mt1 j k x Hr1 Hj Hk)
        as (Mt2 & Hst & Hr2 & Hset & Hother).
      exists Mt2. split; [assumption |]. split; [assumption |]. split.
      * intros i j' Hi Hj'. rewrite Hother; [now apply Hold1 |].
        intros [= -> ->]. lia.
      * intros j' Hj'. destruct (decide (j' = j)) as [-> | Hne].
        -- now rewrite Hset.
        -- rewrite Hother; [apply Hnew1; lia |]. intros [= ->]. lia.
    + exists Mt'. split; [assumption |]. split; [assumption |].
      intros i j Hi Hj. destruct (decide (i = k)) as [-> | Hne].
      * now apply Hnew.
      * apply Hold; lia.
Qed.

(** C10. [transpose] is an involution on the non-empty rectangular matrices:
    for a matrix of [I > 0] rows of [J > 0] Numbers each, square or not,
    the transpose is a matrix of [J] rows of [I] Numbers, and transposing it
    gives the matrix back. *)
Theorem transpose_involutive (I J : nat) (M : list (list R)) :
  (0 < I)%nat -> (0 < J)%nat -> rect I J M ->
  exists Mt, transpose M = Some Mt /\ rect J I Mt /\ transpose Mt = Some M.
Proof.
  intros HI HJ HM.
  destruct (transpose_rect I J M HM HI) as (Mt & HMt & Hr & Hent).
  destruct (transpose_rect J I Mt Hr HJ) as (Mtt & HMtt & Hrr & Hent').
  exists Mt. split; [assumption |]. split; [assumption |].
  rewrite HMtt. f_equal. apply (rect_ext I J); [assumption .. |].
  intros i j Hi Hj. rewrite Hent' by assumption. now apply Hent.
Qed.

Lemma transpose_involutive_witness :
  exists Mt, transpose [[1; 2; 3]; [4; 5; 6]] = Some Mt /\ rect 3 2 Mt /\
             transpose Mt = Some [[1; 2; 3]; [4; 5; 6]].
Proof.
  apply (transpose_involutive 2 3); [lia | lia |].
  split; [reflexivity | repeat constructor].
Defined.

(** ** Frame transforms *)

Lemma unit_circle (x : R) : sin x * sin x + cos x * cos x = 1.
Proof. pose proof (sin2_cos2 x) as H. unfold Rsqr in H. exact H. Qed.

(** C3. For every triple of angles the two composite transforms are 3x3
    matrices of Numbers, each is the transpose of the other, and their
    products by [getMatMul], in either order, are exactly the identity. *)
Theorem frame_transforms_inverse (raan_rad inc_rad aop_rad : R) :
  exists Q Qt,
    getQeci2pqw raan_rad inc_rad aop_rad = Some Q /\
    getQpqw2eci raan_rad inc_rad aop_rad = Some Qt /\
    transpose Q = Some Qt /\ transpose Qt = Some Q /\
    getMatMul Qt Q = Some identity3 /\ getMatMul Q Qt = Some identity3.
Proof.
  pose proof (unit_circle raan_rad) as H1.
  pose proof (unit_circle inc_rad) as H2.
  pose proof (unit_circle aop_rad) as H3.
  unfold getQpqw2eci, getQeci2pqw, R1, R3.
  set (c1 := cos raan_rad) in *. set (s1 := sin raan_rad) in *.
  set (c2 := cos inc_rad) in *. set (s2 := sin inc_rad) in *.
  set (c3 := cos aop_rad) in *. set (s3 := sin aop_rad) in *.
  clearbody c1 s1 c2 s2 c3 s3.
  do 2 eexists. repeat (split; [reflexivity |]).
  split; cbn; unfold identity3; repeat f_equal; nsatz.
Qed.

(** ** Anomaly solver *)

Lemma solver_loop_step (M_rad e : R) (st : solver_state) :
  solver_loop M_rad e st =
    if solver_guard st then solver_body M_rad e st ≫= solver_loop M_rad e
    else Some st.
Proof.
  rewrite solver_loop_equation_1.
  set (rhs := if solver_guard st then _ else _).
  destruct (inspect (solver_guard st)) as [[] Hg]; simpl.
  - assert (rhs = solver_body M_rad e st ≫= solver_loop M_rad e) as ->
      by (subst rhs; now rewrite Hg).
    set (rhs := _ ≫= _).
    destruct (inspect (solver_body M_rad e st)) as [[st' |] Hb]; simpl;
      subst rhs; now rewrite Hb.
  - subst rhs. now rewrite Hg.
Qed.

Lemma one_minus_e_cos_pos (e x : R) : 0 <= e < 1 -> 0 < 1 - e <= 1 - e * cos x.
Proof. intros He. pose proof (COS_bound x) as [_ Hc]. nra. Qed.

Lemma bind_Some {A B : Type} (f : A -> option B) (x : A) :
  Some x ≫= f = f x.
Proof. reflexivity. Qed.

Section solver.
Variables M_rad e : R.
Hypothesis He : 0 <= e < 1.

Lemma solver_body_defined (st : solver_state) :
  solver_body M_rad e st =
    let r := correction M_rad e (E_rad st) in
    let conv := bool_decide (Rabs r < tol) in
    Some {| E_rad := if negb conv then E_rad st - r else E_rad st;
            isConverged := conv;
            isOverrun := bool_decide (nMax < S (n st))%nat;
            n := S (n st) |}.
Proof.
  unfold solver_body, js_div.
  pose proof (one_minus_e_cos_pos e (E_rad st) He).
  destruct (decide (1 - e * cos (E_rad st) = 0)); [lra | reflexivity].
Qed.

(** The loop ends from every state. *)
Lemma solver_loop_total (st : solver_state) :
  is_Some (solver_loop M_rad e st).
Proof.
  remember (solver_measure st) as m eqn:Hm.
  revert st Hm. induction m as [m IH] using lt_wf_ind. intros st ->.
  rewrite solver_loop_step. destruct (solver_guard st) eqn:Hg; [| eauto].
  rewrite solver_body_defined. cbv zeta. rewrite bind_Some.
  eapply IH; [| reflexivity].
  eapply solver_body_measure; [exact Hg |]. apply solver_body_defined.
Qed.

(** What a run from a state inside the loop ends in. *)
Lemma solver_loop_run (st : solver_state) :
  solver_guard st = true -> (n st <= nMax)%nat ->
  E_rad st = Nat.iter (n st) (newton M_rad e) (initial_guess M_rad e) ->
  exists st',
    solver_loop M_rad e st = Some st' /\
    (n st < n st' <= S nMax)%nat /\
    (isConverged st' = true ->
     E_rad st' = Nat.iter (pred (n st')) (newton M_rad e)
                   (initial_guess M_rad e) /\
     Rabs (correction M_rad e (E_rad st')) < tol) /\
    (isConverged st' = false ->
     n st' = S nMax /\
     E_rad st' = Nat.iter (S nMax) (newton M_rad e)
                   (initial_guess M_rad e)).
Proof.
  remember (nMax - n st)%nat as m eqn:Hm.
  revert st Hm. induction m as [m IH] using lt_wf_ind.
  intros st -> Hg Hn HE.
  rewrite solver_loop_step, Hg, solver_body_defined. cbv zeta.
  rewrite bind_Some.
  set (r := correction M_rad e (E_rad st)).
  set (st1 := SolverState _ _ _ _).
  assert (Hn1 : n st1 = S (n st)) by reflexivity.
  destruct (bool_decide (Rabs r < tol)) eqn:Hconv.
  - (* converged on this pass *)
    exists st1. rewrite solver_loop_step.
    split; [reflexivity |]. split; [lia |]. split; [| discriminate].
    intros _. rewrite Hn1. split; [exact HE |].
    now apply bool_decide_eq_true in Hconv.
  - assert (HE1 : E_rad st1 =
                  Nat.iter (n st1) (newton M_rad e)
                    (initial_guess M_rad e)).
    { rewrite Hn1, Nat.iter_succ, <- HE. reflexivity. }
    destruct (bool_decide (nMax < S (n st))%nat) eqn:Hover.
    + (* the pass that overruns *)
      apply bool_decide_eq_true in Hover.
      exists st1. rewrite solver_loop_step.
      split; [reflexivity |]. split; [lia |]. split; [discriminate |].
      intros _. assert (Hlast : n st1 = S nMax) by lia.
      split; [exact Hlast |]. now rewrite <- Hlast.
    + apply bool_decide_eq_false in Hover.
      destruct (IH (nMax - n st1)%nat ltac:(lia) st1 eq_refl
                  eq_refl ltac:(lia) HE1)
        as (st' & Hrun & Hbound & Hc & Hnc).
      exists st'. split; [exact Hrun |].
      split; [lia |]. split; [exact Hc | exact Hnc].
Qed.
End solver.

(** C9. For an eccentricity of [[0, 1)] the denominator [1 - e cos E] of the
    correction is at least [1 - e > 0] in every state of the loop, so every
    pass divides by a non-zero Number and the solver returns a Number. *)
Theorem solver_denominator_positive (M_rad e : R) :
  0 <= e < 1 ->
  (forall st : solver_state,
     0 < 1 - e <= 1 - e * cos (E_rad st) /\
     is_Some (solver_body M_rad e st)) /\
  is_Some (getEaFromMaE M_rad e).
Proof.
  intros He. split.
  - intros st. split; [now apply one_minus_e_cos_pos |].
    rewrite solver_body_defined by assumption. cbv zeta. eauto.
  - unfold getEaFromMaE.
    destruct (solver_loop_total M_rad e He (solver_init M_rad e)) as [st ->].
    rewrite bind_Some. eauto.
Qed.

Lemma solver_init_run (M_rad e : R) :
  0 <= e < 1 ->
  exists st,
    solver_loop M_rad e (solver_init M_rad e) = Some st /\
    getEaFromMaE M_rad e = Some (E_rad st) /\
    (1 <= n st <= S nMax)%nat /\
    (isConverged st = true ->
     E_rad st = Nat.iter (pred (n st)) (newton M_rad e)
                  (initial_guess M_rad e) /\
     Rabs (correction M_rad e (E_rad st)) < tol) /\
    (isConverged st = false ->
     n st = S nMax /\
     E_rad st = Nat.iter (S nMax) (newton M_rad e) (initial_guess M_rad e)).
Proof.
  intros He.
  destruct (solver_loop_run M_rad e He (solver_init M_rad e))
    as (st & Hrun & Hn & Hc & Hnc); [reflexivity | unfold nMax; simpl; lia | reflexivity |].
  exists st. split; [exact Hrun |]. split.
  - unfold getEaFromMaE. now rewrite Hrun.
  - split; [| split; assumption]. change (n (solver_init M_rad e)) with 0%nat in Hn. lia.
Qed.

Lemma solver_denominator_positive_witness :
  (forall st : solver_state,
     0 < 1 - 0 <= 1 - 0 * cos (E_rad st) /\
     is_Some (solver_body 0 0 st)) /\
  is_Some (getEaFromMaE 0 0).
Proof. apply (solver_denominator_positive 0 0). lra. Defined.

(** *** An input on which the tolerance is never met *)

Section cycle.
Variable d : R.
Hypothesis Hd : PI <= d.
Hypothesis Hroot : d * cos d - sin d = 1 / 2.

Let e := 2 * d / (1 + 2 * d).
Let M_rad := - e / 2.

Lemma cycle_d_pos : 3 < d.
Proof. pose proof PI2_3_2. lra. Qed.

Lemma cycle_e_range : 0 <= e < 1.
Proof.
  pose proof cycle_d_pos as Hp.
  assert (He : e * (1 + 2 * d) = 2 * d) by (unfold e; field; lra).
  split; nra.
Qed.

Lemma cycle_initial_guess : initial_guess M_rad e = 0.
Proof.
  pose proof cycle_e_range. pose proof PI_RGT_0.
  unfold initial_guess. destruct (decide (M_rad < PI)) as [_ | Hn].
  - unfold M_rad. lra.
  - exfalso. apply Hn. unfold M_rad. lra.
Qed.

Lemma cycle_correction_0 : correction M_rad e 0 = d.
Proof.
  pose proof cycle_d_pos.
  unfold correction. rewrite sin_0, cos_0. unfold M_rad, e. field. lra.
Qed.

Lemma cycle_correction_d : correction M_rad e (- d) = - d.
Proof.
  pose proof cycle_e_range as He.
  pose proof (one_minus_e_cos_pos e d He) as Hden.
  unfold correction. rewrite sin_neg, cos_neg.
  apply (Rmult_eq_reg_r (1 - e * cos d)); [| lra].
  unfold Rdiv. rewrite Rmult_assoc, Rinv_l by lra.
  unfold M_rad. nra.
Qed.

Lemma cycle_iter (k : nat) :
  Nat.iter (2 * k) (newton M_rad e) 0 = 0 /\
  Nat.iter (S (2 * k)) (newton M_rad e) 0 = - d.
Proof.
  induction k as [| k [IH0 IH1]].
  - split; [reflexivity |]. simpl. unfold newton.
    rewrite cycle_correction_0. lra.
  - assert (H0 : Nat.iter (2 * S k) (newton M_rad e) 0 = 0).
    { replace (2 * S k)%nat with (S (S (2 * k))) by lia.
      rewrite Nat.iter_succ, IH1. unfold newton.
      rewrite cycle_correction_d. lra. }
    split; [exact H0 |].
    rewrite Nat.iter_succ, H0. unfold newton.
    rewrite cycle_correction_0. lra.
Qed.

Lemma cycle_never_converges (k : nat) :
  tol <= Rabs (correction M_rad e (Nat.iter k (newton M_rad e) 0)).
Proof.
  pose proof cycle_d_pos as Hp.
  destruct (Nat.Even_or_Odd k) as [[j ->] | [j ->]].
  - destruct (cycle_iter j) as [-> _]. rewrite cycle_correction_0.
    rewrite Rabs_pos_eq by lra. unfold tol. lra.
  - replace (2 * j + 1)%nat with (S (2 * j)) by lia.
    destruct (cycle_iter j) as [_ ->]. rewrite cycle_correction_d.
    rewrite Rabs_Ropp, Rabs_pos_eq by lra. unfold tol. lra.
Qed.

Lemma cycle_overruns :
  exists st,
    solver_loop M_rad e (solver_init M_rad e) = Some st /\
    n st = S nMax /\ isConverged st = false /\
    getEaFromMaE M_rad e = Some (- d).
Proof.
  destruct (solver_init_run M_rad e cycle_e_range)
    as (st & Hrun & Hret & Hn & Hc & Hnc).
  rewrite cycle_initial_guess in Hc, Hnc.
  destruct (isConverged st) eqn:Hconv.
  - destruct (Hc eq_refl) as [HE Hsmall]. rewrite HE in Hsmall.
    pose proof (cycle_never_converges (pred (n st))). lra.
  - destruct (Hnc eq_refl) as [Hlast HE].
    exists st. repeat (split; [assumption || reflexivity |]).
    rewrite Hret, HE. f_equal.
    replace (S nMax) with (S (2 * 500)) by reflexivity.
    apply cycle_iter.
Qed.
End cycle.

Lemma kepler_cycle_root :
  exists d, PI <= d <= 3 * (PI / 2) /\ d * cos d - sin d = 1 / 2.
Proof.
  pose proof PI_RGT_0 as Hpi.
  assert (Hcont : continuity kepler_cycle) by (unfold kepler_cycle; reg).
  destruct (IVT_cor kepler_cycle PI (3 * (PI / 2)) Hcont) as (d & Hd & Hz).
  - lra.
  - unfold kepler_cycle. rewrite cos_PI, sin_PI, cos_3PI2, sin_3PI2. nra.
  - exists d. split; [exact Hd |]. unfold kepler_cycle in Hz. lra.
Qed.

(** C2. The loop is meant to stop after [nMax = 1000] passes, but its guard
    lets a run that never meets the tolerance make [nMax + 1] of them: with
    [d] the root of [d cos d - sin d = 1/2] between [PI] and [3 PI / 2]
    (about 4.6049), [e = 2d / (1 + 2d)] (about 0.9021) and [M = - e / 2], the
    estimates alternate between [0] and [-d], every correction has magnitude
    [d], and the solver returns [-d] after 1001 passes, not converged. *)
Theorem getEaFromMaE_overrun :
  exists d,
    PI <= d <= 3 * (PI / 2) /\ d * cos d - sin d = 1 / 2 /\
    let e := 2 * d / (1 + 2 * d) in
    let M_rad := - e / 2 in
    0 <= e < 1 /\
    exists st,
      solver_loop M_rad e (solver_init M_rad e) = Some st /\
      n st = S nMax /\ isConverged st = false /\
      getEaFromMaE M_rad e = Some (- d).
Proof.
  destruct kepler_cycle_root as (d & Hd & Hroot).
  exists d. split; [exact Hd |]. split; [exact Hroot |]. cbv zeta.
  split; [apply cycle_e_range; lra |].
  apply cycle_overruns; [lra | exact Hroot].
Qed.

(** * Further properties *)

(** ** The integer part *)

(** X3. On every non-negative Number, and on every Number at most [-1]
    that is not an integer, [INT] is the truncation toward zero: the
    integer of largest magnitude that does not pass the Number. *)
Theorem INT_truncates (f : R) :
  0 <= f \/ (f <= -1 /\ Math_floor f <> f) ->
  INT f = IZR (Ztrunc f) /\
  Rabs (INT f) <= Rabs f < Rabs (INT f) + 1.
Proof.
  intros Hf.
  assert (Htr : INT f = IZR (Ztrunc f)) by (apply INT_trunc; tauto).
  split; [exact Htr |]. rewrite Htr.
  destruct (Ztrunc_bound f) as [Hpos Hneg].
  destruct (Rle_or_lt 0 f) as [H0 | H0].
  - specialize (Hpos H0).
    assert (Hge : 0 <= IZR (Ztrunc f)).
    { destruct (Rle_or_lt 0 (IZR (Ztrunc f))) as [H | H]; [exact H |].
      assert (H1 : (Ztrunc f <= -1)%Z) by (apply lt_IZR in H; lia).
      apply IZR_le in H1. lra. }
    rewrite !Rabs_pos_eq by lra. lra.
  - specialize (Hneg H0).
    assert (Hle : IZR (Ztrunc f) <= 0).
    { destruct (Rle_or_lt (IZR (Ztrunc f)) 0) as [H | H]; [exact H |].
      assert (H1 : (1 <= Ztrunc f)%Z) by (apply lt_IZR in H; lia).
      apply IZR_le in H1. lra. }
    rewrite !Rabs_left1 by lra. lra.
Qed.

Lemma INT_truncates_witness :
  INT (-3.4) = IZR (Ztrunc (-3.4)) /\
  Rabs (INT (-3.4)) <= Rabs (-3.4) < Rabs (INT (-3.4)) + 1.
Proof.
  apply (INT_truncates (-3.4)). right. split; [lra |].
  rewrite (Math_floor_eq (-4)); lra.
Defined.

(** ** The positive modulus as a floored modulus *)

(** [posmod] differs from its argument by a whole multiple of the modulus. *)
Lemma posmod_multiple (a b : R) :
  0 < b ->
  exists k : Z, posmod a b = Some (a - b * IZR k) /\ 0 <= a - b * IZR k < b.
Proof.
  intros Hb. destruct (js_rem_pos a b Hb) as (c & Hc & Hr & _).
  unfold posmod. rewrite Hc. rewrite bind_Some.
  unfold js_rem in Hc. destruct (decide (b = 0)); [lra |].
  injection Hc as <-.
  destruct (decide (a - b * IZR (Ztrunc (a / b)) < 0)).
  - exists (Ztrunc (a / b) - 1)%Z. rewrite minus_IZR.
    split; [f_equal; ring | lra].
  - exists (Ztrunc (a / b)). split; [reflexivity | lra].
Qed.

Lemma floor_of_quotient (a b : R) (k : Z) :
  0 < b -> 0 <= a - b * IZR k < b -> Zfloor (a / b) = k.
Proof.
  intros Hb Hk. apply Zfloor_eq.
  assert (Hq : a / b * b = a) by (field; lra).
  split.
  - apply (Rmult_le_reg_r b); [lra |]. lra.
  - apply (Rmult_lt_reg_r b); [lra |]. lra.
Qed.

Lemma posmod_as_floor (a b : R) :
  0 < b -> posmod a b = Some (a - b * Math_floor (a / b)).
Proof.
  intros Hb. destruct (posmod_multiple a b Hb) as (k & Hk & Hr).
  unfold Math_floor. now rewrite (floor_of_quotient a b k Hb Hr).
Qed.

(** X1. For a positive modulus [posmod] is the floored modulus
    [a - b floor (a / b)]: it is unchanged when a whole multiple of [b] is
    added to [a], and it leaves the Numbers of [[0, b)] as they are. *)
Theorem posmod_floored (a b : R) (k : Z) :
  0 < b ->
  posmod a b = Some (a - b * Math_floor (a / b)) /\
  posmod (a + IZR k * b) b = posmod a b /\
  (0 <= a < b -> posmod a b = Some a).
Proof.
  intros Hb. split; [now apply posmod_as_floor |]. split.
  - rewrite !posmod_as_floor by assumption. f_equal. unfold Math_floor.
    replace ((a + IZR k * b) / b) with (a / b + IZR k) by (field; lra).
    rewrite Zfloor_addz, plus_IZR. ring.
  - intros Ha. rewrite posmod_as_floor by assumption. f_equal.
    unfold Math_floor. rewrite (floor_of_quotient a b 0 Hb); lra.
Qed.

Lemma posmod_floored_witness :
  posmod 1 2 = Some (1 - 2 * Math_floor (1 / 2)) /\
  posmod (1 + 5 * 2) 2 = posmod 1 2 /\
  (0 <= 1 < 2 -> posmod 1 2 = Some 1).
Proof. apply (posmod_floored 1 2 5). lra. Defined.

(** Sine and cosine are unchanged by a whole number of turns. *)
Lemma sin_cos_turns (x : R) (k : Z) :
  sin (x + IZR k * (2 * PI)) = sin x /\ cos (x + IZR k * (2 * PI)) = cos x.
Proof.
  destruct (Z_le_gt_dec 0 k) as [Hk | Hk].
  - rewrite <- (Z2Nat.id k Hk), <- INR_IZR_INZ.
    replace (x + INR (Z.to_nat k) * (2 * PI))
      with (x + 2 * INR (Z.to_nat k) * PI) by ring.
    split; [apply sin_period | apply cos_period].
  - assert (Hn : (0 <= - k)%Z) by lia.
    set (y := x + IZR k * (2 * PI)).
    replace x with (y + 2 * INR (Z.to_nat (- k)) * PI).
    + now rewrite sin_period, cos_period.
    + rewrite INR_IZR_INZ, (Z2Nat.id _ Hn), opp_IZR. unfold y. ring.
Qed.

(** A wrapped angle is the same direction as the angle. *)
Lemma posmod_turn (a : R) :
  exists nu, posmod a (2 * PI) = Some nu /\ 0 <= nu < 2 * PI /\
             sin nu = sin a /\ cos nu = cos a.
Proof.
  destruct (posmod_multiple a (2 * PI) two_PI_pos) as (k & Hk & Hr).
  exists (a - 2 * PI * IZR k). split; [exact Hk |]. split; [exact Hr |].
  replace (a - 2 * PI * IZR k) with (a + IZR (- k) * (2 * PI))
    by (rewrite opp_IZR; ring).
  apply sin_cos_turns.
Qed.

(** X2. The argument of periapsis and the mean anomaly are angles between
    [0] and [2 PI] with the sine and cosine of the difference they wrap. *)
Theorem derived_angles_wrapped (lop_rad raan_rad ml_rad : R) :
  (exists aop, getAopFromLopRaan lop_rad raan_rad = Some aop /\
     0 <= aop <= 2 * PI /\
     sin aop = sin (lop_rad - raan_rad) /\
     cos aop = cos (lop_rad - raan_rad)) /\
  (exists M, getMaFromMlLop ml_rad lop_rad = Some M /\
     0 <= M <= 2 * PI /\
     sin M = sin (ml_rad - lop_rad) /\
     cos M = cos (ml_rad - lop_rad)).
Proof.
  unfold getAopFromLopRaan, getMaFromMlLop.
  destruct (posmod_turn (lop_rad - raan_rad)) as (aop & Ha & Hra & Hsa & Hca).
  destruct (posmod_turn (ml_rad - lop_rad)) as (M & HM & HrM & HsM & HcM).
  split; [exists aop | exists M]; repeat split; try assumption; lra.
Qed.

(** ** Calendar dates and Julian time *)

Lemma INT_div (a b : Z) :
  (0 <= a)%Z -> (0 < b)%Z -> INT (IZR a / IZR b) = IZR (a / b).
Proof.
  intros Ha Hb.
  assert (Hb' : 0 < IZR b) by now apply IZR_lt.
  assert (Ha' : 0 <= IZR a) by now apply IZR_le.
  rewrite INT_nonneg.
  - apply Math_floor_eq.
    pose proof (Z.mul_div_le a b Hb) as Hlo.
    pose proof (Z.mul_succ_div_gt a b Hb) as Hhi.
    apply IZR_le in Hlo. apply IZR_lt in Hhi.
    rewrite mult_IZR in Hlo. rewrite mult_IZR, succ_IZR in Hhi.
    assert (Hq : IZR a / IZR b * IZR b = IZR a) by (field; lra).
    split.
    + apply (Rmult_le_reg_r (IZR b)); [lra |]. lra.
    + apply (Rmult_lt_reg_r (IZR b)); [lra |]. lra.
  - unfold Rdiv. apply Rmult_le_pos; [lra |].
    left. now apply Rinv_0_lt_compat.
Qed.

(** On whole, non-negative fields the day number is whole plus a half. *)
Lemma getJ0FromDatevec_whole (y m d : Z) :
  (0 <= y)%Z -> (0 <= m)%Z ->
  getJ0FromDatevec (IZR y) (IZR m) (IZR d) =
    IZR (367 * y - 7 * (y + (m + 9) / 12) / 4 + 275 * m / 9 + d) + 1721013.5.
Proof.
  intros Hy Hm. unfold getJ0FromDatevec.
  replace ((IZR m + 9) / 12) with (IZR (m + 9) / IZR 12)
    by (rewrite plus_IZR; reflexivity).
  rewrite INT_div by lia.
  replace (7 * (IZR y + IZR ((m + 9) / 12)) / 4)
    with (IZR (7 * (y + (m + 9) / 12)) / IZR 4)
    by (rewrite mult_IZR, plus_IZR; reflexivity).
  rewrite INT_div by (try apply Z.mul_nonneg_nonneg; try apply Z.add_nonneg_nonneg; try apply Z.div_pos; lia).
  replace (275 * IZR m / 9) with (IZR (275 * m) / IZR 9)
    by (rewrite mult_IZR; reflexivity).
  rewrite INT_div by lia.
  rewrite !plus_IZR, !minus_IZR, mult_IZR. lra.
Qed.

Ltac lia_div := Z.to_euclidean_division_equations; lia.

(** Between 1901 and 2099 the leap years are the multiples of four. *)
Lemma leap_year_by_four (y : Z) :
  (1901 <= y <= 2099)%Z -> leap_year y = (y mod 4 =? 0)%Z.
Proof.
  intros Hy. unfold leap_year.
  destruct (Z.eqb_spec (y mod 100) 0) as [H100 | H100].
  - assert (y = 2000%Z) as ->.
    { clear -Hy H100. pose proof (Z.div_mod y 100 ltac:(lia)). lia. }
    reflexivity.
  - destruct (Z.eqb_spec (y mod 400) 0) as [H400 | H400].
    + exfalso. apply H100. clear -H400.
      pose proof (Z.div_mod y 400 ltac:(lia)) as H. rewrite H400 in H.
      rewrite H.
      replace (400 * (y / 400) + 0)%Z with ((4 * (y / 400)) * 100)%Z by lia.
      apply Z.mod_mul. lia.
    + now rewrite andb_true_r, orb_false_r.
Qed.

(** The day after has the next day number. *)
Lemma J0_of_next_day (y m d : Z) :
  (1901 <= y <= 2099)%Z -> (1 <= m <= 12)%Z ->
  (1 <= d <= days_in_month y m)%Z ->
  J0_of (next_day (y, m, d)) = J0_of (y, m, d) + 1.
Proof.
  intros Hy Hm Hd. unfold next_day, J0_of.
  pose proof (leap_year_by_four y Hy) as Hleap.
  unfold days_in_month in *. rewrite Hleap in *.
  assert (Hcases : (m = 1 \/ m = 2 \/ m = 3 \/ m = 4 \/ m = 5 \/ m = 6 \/
                    m = 7 \/ m = 8 \/ m = 9 \/ m = 10 \/ m = 11 \/ m = 12)%Z)
    by lia.
  destruct Hcases as [-> | [-> | [-> | [-> | [-> | [-> | [-> | [-> | [-> |
                     [-> | [-> | ->]]]]]]]]]]]; simpl in *.
  all: try (destruct (Z.eqb_spec (y mod 4) 0)).
  all: match goal with
       | |- context [(?x <? ?k)%Z] => destruct (Z.ltb_spec x k)
       end.
  all: rewrite !getJ0FromDatevec_whole by lia.
  all: match goal with
       | |- IZR ?a + ?c = IZR ?b + ?c + 1 =>
           replace a with (b + 1)%Z by lia_div;
           rewrite plus_IZR; lra
       end.
Qed.

(** X4. From 1901 to 2099 [getJ0FromDatevec] counts calendar days: the
    day after a date, within the month, across a month's end (leap years
    included) or across the year's end, has the day number plus one; and
    the day number of 2000-01-01 is 2451544.5. *)
Theorem getJ0FromDatevec_counts_days (y m d : Z) :
  (1901 <= y <= 2099)%Z -> (1 <= m <= 12)%Z ->
  (1 <= d <= days_in_month y m)%Z ->
  J0_of (2000, 1, 1)%Z = 2451544.5 /\
  J0_of (next_day (y, m, d)) = J0_of (y, m, d) + 1.
Proof.
  intros Hy Hm Hd. split; [| now apply J0_of_next_day].
  unfold J0_of. rewrite getJ0FromDatevec_whole by lia.
  replace (367 * 2000 - 7 * (2000 + (1 + 9) / 12) / 4 + 275 * 1 / 9 + 1)%Z
    with 730531%Z by reflexivity.
  lra.
Qed.

Lemma getJ0FromDatevec_counts_days_witness :
  J0_of (2000, 1, 1)%Z = 2451544.5 /\
  J0_of (next_day (2024, 2, 29)%Z) = J0_of (2024, 2, 29)%Z + 1.
Proof.
  apply (getJ0FromDatevec_counts_days 2024 2 29); [lia | lia |].
  vm_compute. split; discriminate.
Defined.

(** X5. For the time fields of a [Date] (whole hours of [[0, 24)], whole
    minutes and seconds of [[0, 60)], whole milliseconds of [[0, 1000)]),
    with the seconds formed as the orchestrator forms them, the hours
    fraction is at most that of 23:59:59.999, which is below 24, and the
    Julian date stays within the day that starts at [J0]. *)
Theorem getJdFromDateTime_same_day (J0 : R) (h m s ms : Z) :
  (0 <= h < 24)%Z -> (0 <= m < 60)%Z -> (0 <= s < 60)%Z ->
  (0 <= ms < 1000)%Z ->
  0 <= getUtFromTimevec (IZR h) (IZR m) (IZR s + IZR ms * 1e-3)
    <= getUtFromTimevec 23 59 (59 + 999 * 1e-3) /\
  getUtFromTimevec 23 59 (59 + 999 * 1e-3) < 24 /\
  J0 <= getJdFromDateTime J0
          (getUtFromTimevec (IZR h) (IZR m) (IZR s + IZR ms * 1e-3))
     < J0 + 1.
Proof.
  intros [Hh0 Hh1] [Hm0 Hm1] [Hs0 Hs1] [Hms0 Hms1].
  assert (Hh : 0 <= IZR h <= 23).
  { split; [now apply IZR_le | apply IZR_le; lia]. }
  assert (Hm : 0 <= IZR m <= 59).
  { split; [now apply IZR_le | apply IZR_le; lia]. }
  assert (Hs : 0 <= IZR s <= 59).
  { split; [now apply IZR_le | apply IZR_le; lia]. }
  assert (Hms : 0 <= IZR ms <= 999).
  { split; [now apply IZR_le | apply IZR_le; lia]. }
  unfold getJdFromDateTime, getUtFromTimevec. lra.
Qed.

Lemma getJdFromDateTime_same_day_witness :
  0 <= getUtFromTimevec (IZR 23) (IZR 59) (IZR 59 + IZR 999 * 1e-3)
    <= getUtFromTimevec 23 59 (59 + 999 * 1e-3) /\
  getUtFromTimevec 23 59 (59 + 999 * 1e-3) < 24 /\
  2451544.5 <= getJdFromDateTime 2451544.5
          (getUtFromTimevec (IZR 23) (IZR 59) (IZR 59 + IZR 999 * 1e-3))
     < 2451544.5 + 1.
Proof. apply (getJdFromDateTime_same_day 2451544.5 23 59 59 999); lia. Defined.

Lemma julian_centuries_of_date (y m d : Z) (H M S ms : R) :
  julian_centuries_of (date_of (y, m, d) H M S ms) =
    (J0_of (y, m, d) + (H + M / 60 + (S + ms * 1e-3) / 3600) / 24 - 2451545)
    / 36525.
Proof.
  unfold julian_centuries_of, date_of, J0_of. simpl.
  unfold getJulianCenturies, getJdFromDateTime, getUtFromTimevec.
  replace (IZR (m - 1) + 1) with (IZR m) by (rewrite minus_IZR; lra).
  reflexivity.
Qed.

(** X6. The orchestrator's time conversion, which reads the month counted
    from 0: 2000-01-01T12:00:00Z is [T0 = 0], and from 1901 to 2099 the same
    time of day on the next calendar day is [1/36525] of a century later. *)
Theorem julian_centuries_of_calendar (y m d : Z) (H M S ms : R) :
  (1901 <= y <= 2099)%Z -> (1 <= m <= 12)%Z ->
  (1 <= d <= days_in_month y m)%Z ->
  julian_centuries_of (date_of (2000, 1, 1)%Z 12 0 0 0) = 0 /\
  julian_centuries_of (date_of (next_day (y, m, d)) H M S ms) =
    julian_centuries_of (date_of (y, m, d) H M S ms) + 1 / 36525.
Proof.
  intros Hy Hm Hd. split.
  - rewrite julian_centuries_of_date. unfold J0_of.
    rewrite getJ0FromDatevec_whole by lia.
    replace (367 * 2000 - 7 * (2000 + (1 + 9) / 12) / 4 + 275 * 1 / 9 + 1)%Z
      with 730531%Z by reflexivity.
    lra.
  - pose proof (J0_of_next_day y m d Hy Hm Hd) as Hstep.
    destruct (next_day (y, m, d)) as [[y' m'] d'].
    rewrite !julian_centuries_of_date, Hstep. lra.
Qed.

Lemma julian_centuries_of_calendar_witness :
  julian_centuries_of (date_of (2000, 1, 1)%Z 12 0 0 0) = 0 /\
  julian_centuries_of (date_of (next_day (1999, 12, 31)%Z) 6 30 15 250) =
    julian_centuries_of (date_of (1999, 12, 31)%Z 6 30 15 250) + 1 / 36525.
Proof.
  apply (julian_centuries_of_calendar 1999 12 31); [lia | lia |].
  vm_compute. split; discriminate.
Defined.

(** ** Dot products of arrays of any length *)

Lemma for_range_fails {S : Type} (body : nat -> S -> option S)
  (hi i : nat) (s : S) :
  (i < hi)%nat -> (forall s', body i s' = None) ->
  for_range hi body s = None.
Proof.
  intros Hi Hfail. induction hi as [| k IH]; [lia |].
  rewrite for_range_S. destruct (decide (i = k)) as [-> | Hne].
  - destruct (for_range k body s); [apply Hfail | reflexivity].
  - rewrite IH by lia. reflexivity.
Qed.

Lemma dot_snoc (u v : list R) (a b : R) :
  length u = length v -> dot (u ++ [a]) (v ++ [b]) = dot u v + a * b.
Proof.
  intros Hlen. unfold dot. rewrite zip_with_app by assumption.
  rewrite foldr_app. simpl.
  generalize (zip_with Rmult u v). intros l.
  induction l as [| x l IH]; simpl; [lra | rewrite IH; lra].
Qed.

Lemma dot_take (u v : list R) :
  dot u v = dot u (take (length u) v).
Proof.
  unfold dot. revert v. induction u as [| a u IH]; intros [| b v]; simpl;
    try reflexivity.
  now rewrite <- IH.
Qed.

Lemma dot_comm (u v : list R) : dot u v = dot v u.
Proof.
  unfold dot. revert v. induction u as [| a u IH]; intros [| b v]; simpl;
    try reflexivity.
  rewrite IH. ring.
Qed.

Lemma getDotProd_prefix (lhs rhs : list R) (k : nat) :
  (k <= length lhs)%nat -> (k <= length rhs)%nat ->
  for_range k
    (fun i sum => a ← lhs !! i; b ← rhs !! i; Some (sum + a * b)) 0
  = Some (dot (take k lhs) (take k rhs)).
Proof.
  intros Hl Hr. induction k as [| k IH]; [reflexivity |].
  rewrite for_range_S, IH by lia. rewrite bind_Some.
  destruct (lookup_lt_is_Some_2 lhs k) as [a Ha]; [lia |].
  destruct (lookup_lt_is_Some_2 rhs k) as [b Hb]; [lia |].
  rewrite Ha, Hb. simpl.
  rewrite (take_S_r lhs k a Ha), (take_S_r rhs k b Hb).
  rewrite dot_snoc; [reflexivity |].
  rewrite !length_take. lia.
Qed.

Lemma getDotProd_Some (lhs rhs : list R) :
  (length lhs <= length rhs)%nat -> getDotProd lhs rhs = Some (dot lhs rhs).
Proof.
  intros Hlen. unfold getDotProd.
  rewrite (getDotProd_prefix lhs rhs (length lhs)) by lia.
  now rewrite firstn_all, <- dot_take.
Qed.

Lemma getDotProd_None (lhs rhs : list R) :
  (length rhs < length lhs)%nat -> getDotProd lhs rhs = None.
Proof.
  intros Hlen. unfold getDotProd.
  apply (for_range_fails _ _ (length rhs)); [assumption |].
  intros s. destruct (lhs !! length rhs); [| reflexivity]. simpl.
  rewrite (lookup_ge_None_2 rhs (length rhs)) by lia. reflexivity.
Qed.

(** X7. [getDotProd] runs over the indices of its first argument: when the
    second is at least as long the result is the sum of the products of
    corresponding entries and its surplus entries are ignored; when the
    second is shorter there is no Number to return; on arrays of equal
    length the product is symmetric. *)
Theorem getDotProd_lengths (lhs rhs : list R) :
  ((length lhs <= length rhs)%nat ->
   getDotProd lhs rhs = Some (dot lhs rhs) /\
   getDotProd lhs rhs = getDotProd lhs (take (length lhs) rhs)) /\
  ((length rhs < length lhs)%nat -> getDotProd lhs rhs = None) /\
  (length lhs = length rhs -> getDotProd lhs rhs = getDotProd rhs lhs).
Proof.
  split; [| split].
  - intros Hlen. split; [now apply getDotProd_Some |].
    rewrite !getDotProd_Some; [now rewrite <- dot_take | | assumption].
    rewrite length_take. lia.
  - apply getDotProd_None.
  - intros Hlen. rewrite !getDotProd_Some by lia. f_equal. apply dot_comm.
Qed.

(** ** 3x3 products *)

(** Reduce an equation between arrays to equations between their entries. *)
Ltac entrywise :=
  repeat match goal with
  | |- Some _ = Some _ => apply (f_equal Some)
  | |- _ :: _ = _ :: _ => apply (f_equal2 cons)
  | |- [] = [] => reflexivity
  end.

Lemma length3_inv (v : list R) :
  length v = 3%nat -> exists a b c, v = [a; b; c].
Proof.
  destruct v as [| a [| b [| c [| ? ?]]]]; try discriminate. eauto.
Qed.

Lemma rect33_inv (M : list (list R)) :
  rect 3 3 M ->
  exists a b c d e f g h i, M = [[a; b; c]; [d; e; f]; [g; h; i]].
Proof.
  intros [Hlen Hrows].
  destruct M as [| r1 [| r2 [| r3 [| ? ?]]]]; try discriminate.
  apply Forall_cons in Hrows as [H1 Hrows].
  apply Forall_cons in Hrows as [H2 Hrows].
  apply Forall_cons in Hrows as [H3 _].
  destruct (length3_inv r1 H1) as (a & b & c & ->).
  destruct (length3_inv r2 H2) as (d & e & f & ->).
  destruct (length3_inv r3 H3) as (g & h & i & ->).
  repeat eexists.
Qed.

(** X10. On 3x3 matrices [getMatMul] is associative and agrees with
    [getMatVec]: applying a product to a 3-vector is applying the factors
    one after the other. *)
Theorem getMatMul_getMatVec (A B C : list (list R)) (v : list R) :
  rect 3 3 A -> rect 3 3 B -> rect 3 3 C -> length v = 3%nat ->
  exists AB BC w,
    getMatMul A B = Some AB /\ rect 3 3 AB /\
    getMatMul B C = Some BC /\
    getMatVec B v = Some w /\ length w = 3%nat /\
    getMatVec AB v = getMatVec A w /\
    getMatMul AB C = getMatMul A BC.
Proof.
  intros HA HB HC Hv.
  destruct (rect33_inv A HA) as (a1 & a2 & a3 & a4 & a5 & a6 & a7 & a8 & a9 & ->).
  destruct (rect33_inv B HB) as (b1 & b2 & b3 & b4 & b5 & b6 & b7 & b8 & b9 & ->).
  destruct (rect33_inv C HC) as (c1 & c2 & c3 & c4 & c5 & c6 & c7 & c8 & c9 & ->).
  destruct (length3_inv v Hv) as (x & y & z & ->).
  do 3 eexists.
  split; [reflexivity |]. split; [split; [reflexivity | repeat constructor] |].
  split; [reflexivity |]. split; [reflexivity |]. split; [reflexivity |].
  split; cbn; entrywise; ring.
Qed.

Lemma getMatMul_getMatVec_witness :
  exists AB BC w,
    getMatMul (R3 0) identity3 = Some AB /\ rect 3 3 AB /\
    getMatMul identity3 (R1 0) = Some BC /\
    getMatVec identity3 [1; 2; 3] = Some w /\ length w = 3%nat /\
    getMatVec AB [1; 2; 3] = getMatVec (R3 0) w /\
    getMatMul AB (R1 0) = getMatMul (R3 0) BC.
Proof.
  apply (getMatMul_getMatVec (R3 0) identity3 (R1 0) [1; 2; 3]);
    try (split; [reflexivity | repeat constructor]); reflexivity.
Defined.

(** ** Elementary rotations *)

(** X11. Each vector rotation ([r1], [r3]) is the transpose of the frame
    transformation about the same axis ([R1], [R3]) and its inverse under
    [getMatMul]. *)
Theorem rotation_transposes (rad : R) :
  transpose (R1 rad) = Some (r1 rad) /\ transpose (r1 rad) = Some (R1 rad) /\
  transpose (R3 rad) = Some (r3 rad) /\ transpose (r3 rad) = Some (R3 rad) /\
  getMatMul (R1 rad) (r1 rad) = Some identity3 /\
  getMatMul (r1 rad) (R1 rad) = Some identity3 /\
  getMatMul (R3 rad) (r3 rad) = Some identity3 /\
  getMatMul (r3 rad) (R3 rad) = Some identity3.
Proof.
  pose proof (unit_circle rad) as Hc.
  repeat (split; [reflexivity |]).
  unfold R1, r1, R3, r3, identity3.
  repeat split; cbn; entrywise; nra.
Qed.

(** X12. Rotations about one axis compose by adding their angles, and the
    rotation by the angle zero is the identity. *)
Theorem rotation_composition (a b : R) :
  getMatMul (R1 a) (R1 b) = Some (R1 (a + b)) /\
  getMatMul (R3 a) (R3 b) = Some (R3 (a + b)) /\
  getMatMul (r1 a) (r1 b) = Some (r1 (a + b)) /\
  getMatMul (r3 a) (r3 b) = Some (r3 (a + b)) /\
  R1 0 = identity3 /\ R3 0 = identity3 /\ r1 0 = identity3 /\ r3 0 = identity3.
Proof.
  unfold R1, r1, R3, r3, identity3. rewrite cos_plus, sin_plus, cos_0, sin_0.
  repeat split; cbn; entrywise; ring.
Qed.

(** ** The composite transform is an isometry *)

(** The perifocal-to-inertial transform keeps dot products. *)
Lemma Qpqw2eci_isometry (raan_rad inc_rad aop_rad : R)
  (u v : list R) :
  length u = 3%nat -> length v = 3%nat ->
  exists Q u' v',
    getQpqw2eci raan_rad inc_rad aop_rad = Some Q /\
    getMatVec Q u = Some u' /\ getMatVec Q v = Some v' /\
    length u' = 3%nat /\ length v' = 3%nat /\
    getDotProd u' v' = getDotProd u v.
Proof.
  intros Hu Hv.
  destruct (length3_inv u Hu) as (x1 & y1 & z1 & ->).
  destruct (length3_inv v Hv) as (x2 & y2 & z2 & ->).
  pose proof (unit_circle raan_rad) as H1.
  pose proof (unit_circle inc_rad) as H2.
  pose proof (unit_circle aop_rad) as H3.
  unfold getQpqw2eci, getQeci2pqw, R1, R3.
  set (c1 := cos raan_rad) in *. set (s1 := sin raan_rad) in *.
  set (c2 := cos inc_rad) in *. set (s2 := sin inc_rad) in *.
  set (c3 := cos aop_rad) in *. set (s3 := sin aop_rad) in *.
  clearbody c1 s1 c2 s2 c3 s3.
  do 3 eexists. repeat (split; [reflexivity |]).
  cbn. entrywise. nsatz.
Qed.

(** X13. For every triple of angles [getQpqw2eci] applied with [getMatVec]
    maps 3-vectors to 3-vectors and keeps their dot products, hence lengths
    and angles, and [getQeci2pqw] applied to the image gives the vector
    back. *)
Theorem frame_transform_isometry (raan_rad inc_rad aop_rad : R)
  (u v : list R) :
  length u = 3%nat -> length v = 3%nat ->
  exists Q Qi u' v',
    getQpqw2eci raan_rad inc_rad aop_rad = Some Q /\
    getQeci2pqw raan_rad inc_rad aop_rad = Some Qi /\
    getMatVec Q u = Some u' /\ getMatVec Q v = Some v' /\
    length u' = 3%nat /\ length v' = 3%nat /\
    getDotProd u' v' = getDotProd u v /\
    getMatVec Qi u' = Some u.
Proof.
  intros Hu Hv.
  destruct (length3_inv u Hu) as (x1 & y1 & z1 & ->).
  destruct (length3_inv v Hv) as (x2 & y2 & z2 & ->).
  pose proof (unit_circle raan_rad) as H1.
  pose proof (unit_circle inc_rad) as H2.
  pose proof (unit_circle aop_rad) as H3.
  unfold getQpqw2eci, getQeci2pqw, R1, R3.
  set (c1 := cos raan_rad) in *. set (s1 := sin raan_rad) in *.
  set (c2 := cos inc_rad) in *. set (s2 := sin inc_rad) in *.
  set (c3 := cos aop_rad) in *. set (s3 := sin aop_rad) in *.
  clearbody c1 s1 c2 s2 c3 s3.
  do 4 eexists. repeat (split; [reflexivity |]).
  split; cbn; entrywise; nsatz.
Qed.

Lemma frame_transform_isometry_witness :
  exists Q Qi u' v',
    getQpqw2eci 1 2 3 = Some Q /\
    getQeci2pqw 1 2 3 = Some Qi /\
    getMatVec Q [1; 0; 0] = Some u' /\ getMatVec Q [0; 1; 0] = Some v' /\
    length u' = 3%nat /\ length v' = 3%nat /\
    getDotProd u' v' = getDotProd [1; 0; 0] [0; 1; 0] /\
    getMatVec Qi u' = Some [1; 0; 0].
Proof.
  apply (frame_transform_isometry 1 2 3 [1; 0; 0] [0; 1; 0]); reflexivity.
Defined.

(** ** Which arrays the 3x3 routines accept *)

Lemma row3_Some (M : list (list R)) (i : nat) :
  is_Some (row3 M i) <->
  is_Some (entry M i 0) /\ is_Some (entry M i 1) /\ is_Some (entry M i 2).
Proof.
  unfold row3. split.
  - intros [r Hr].
    destruct (entry M i 0); [| discriminate].
    destruct (entry M i 1); [| discriminate].
    destruct (entry M i 2); [| discriminate]. eauto.
  - intros ([a ->] & [b ->] & [c ->]). simpl. eauto.
Qed.

Lemma col3_Some (M : list (list R)) (j : nat) :
  is_Some (col3 M j) <->
  is_Some (entry M 0 j) /\ is_Some (entry M 1 j) /\ is_Some (entry M 2 j).
Proof.
  unfold col3. split.
  - intros [r Hr].
    destruct (entry M 0 j); [| discriminate].
    destruct (entry M 1 j); [| discriminate].
    destruct (entry M 2 j); [| discriminate]. eauto.
  - intros ([a ->] & [b ->] & [c ->]). simpl. eauto.
Qed.

Lemma row3_length (M : list (list R)) (i : nat) (r : list R) :
  row3 M i = Some r -> length r = 3%nat.
Proof.
  unfold row3. intros Hr.
  destruct (entry M i 0); [| discriminate].
  destruct (entry M i 1); [| discriminate].
  destruct (entry M i 2); [| discriminate].
  simpl in Hr. now injection Hr as <-.
Qed.

Lemma col3_length (M : list (list R)) (j : nat) (r : list R) :
  col3 M j = Some r -> length r = 3%nat.
Proof.
  unfold col3. intros Hr.
  destruct (entry M 0 j); [| discriminate].
  destruct (entry M 1 j); [| discriminate].
  destruct (entry M 2 j); [| discriminate].
  simpl in Hr. now injection Hr as <-.
Qed.

Lemma has_block3_rows (M : list (list R)) :
  has_block3 M <->
  is_Some (row3 M 0) /\ is_Some (row3 M 1) /\ is_Some (row3 M 2).
Proof.
  rewrite !row3_Some. split.
  - intros H. repeat split; apply H; lia.
  - intros ((H00 & H01 & H02) & (H10 & H11 & H12) & (H20 & H21 & H22)) i j Hi Hj.
    destruct i as [| [| [| i]]]; [| | | lia];
      destruct j as [| [| [| j]]]; try lia; assumption.
Qed.

Lemma has_block3_cols (M : list (list R)) :
  has_block3 M <->
  is_Some (col3 M 0) /\ is_Some (col3 M 1) /\ is_Some (col3 M 2).
Proof.
  rewrite !col3_Some. split.
  - intros H. repeat split; apply H; lia.
  - intros ((H00 & H10 & H20) & (H01 & H11 & H21) & (H02 & H12 & H22)) i j Hi Hj.
    destruct i as [| [| [| i]]]; [| | | lia];
      destruct j as [| [| [| j]]]; try lia; assumption.
Qed.

(** X8. [getMatVec] returns a vector exactly when the matrix has its
    leading 3x3 entries and the vector at least three; further rows, columns
    and entries are not read. *)
Theorem getMatVec_defined (M : list (list R)) (v : list R) :
  is_Some (getMatVec M v) <-> has_block3 M /\ (3 <= length v)%nat.
Proof.
  rewrite has_block3_rows. unfold getMatVec. split.
  - intros [w Hw].
    destruct (row3 M 0) as [r1 |] eqn:H1; [| discriminate].
    destruct (row3 M 1) as [r2 |] eqn:H2; [| discriminate].
    destruct (row3 M 2) as [r3 |] eqn:H3; [| discriminate].
    split; [eauto |]. simpl in Hw.
    destruct (le_lt_dec 3 (length v)) as [Hv | Hv]; [assumption |].
    rewrite (getDotProd_None r1 v) in Hw; [discriminate |].
    rewrite (row3_length M 0 r1 H1). exact Hv.
  - intros (([r1 H1] & [r2 H2] & [r3 H3]) & Hv).
    rewrite H1, H2, H3. simpl.
    pose proof (row3_length _ _ _ H1). pose proof (row3_length _ _ _ H2).
    pose proof (row3_length _ _ _ H3).
    rewrite !getDotProd_Some by lia. simpl. eauto.
Qed.

(** X9. [getMatMul] returns a matrix exactly when both arguments have
    their leading 3x3 entries. *)
Theorem getMatMul_defined (lhs rhs : list (list R)) :
  is_Some (getMatMul lhs rhs) <-> has_block3 lhs /\ has_block3 rhs.
Proof.
  rewrite has_block3_rows, has_block3_cols. unfold getMatMul. split.
  - intros [w Hw].
    destruct (row3 lhs 0) as [r1 |] eqn:H1; [| discriminate].
    destruct (row3 lhs 1) as [r2 |] eqn:H2; [| discriminate].
    destruct (row3 lhs 2) as [r3 |] eqn:H3; [| discriminate].
    destruct (col3 rhs 0) as [c1 |] eqn:K1; [| discriminate].
    destruct (col3 rhs 1) as [c2 |] eqn:K2; [| discriminate].
    destruct (col3 rhs 2) as [c3 |] eqn:K3; [| discriminate].
    split; eauto.
  - intros (([r1 H1] & [r2 H2] & [r3 H3]) & ([c1 K1] & [c2 K2] & [c3 K3])).
    rewrite H1, H2, H3, K1, K2, K3. simpl.
    pose proof (row3_length _ _ _ H1). pose proof (row3_length _ _ _ H2).
    pose proof (row3_length _ _ _ H3). pose proof (col3_length _ _ _ K1).
    pose proof (col3_length _ _ _ K2). pose proof (col3_length _ _ _ K3).
    rewrite !getDotProd_Some by lia. simpl. eauto.
Qed.

(** ** Transposition at the edges *)

Lemma for_range_ext {S : Type} (body body' : nat -> S -> option S)
  (hi : nat) (s : S) :
  (forall i s', (i < hi)%nat -> body i s' = body' i s') ->
  for_range hi body s = for_range hi body' s.
Proof.
  intros Hext. induction hi as [| k IH]; [reflexivity |].
  rewrite !for_range_S, IH by (intros; apply Hext; lia).
  destruct (for_range k body' s); [apply Hext; lia | reflexivity].
Qed.

Lemma entry_take (M : list (list R)) (J i j : nat) :
  (j < J)%nat -> entry (take J <$> M) i j = entry M i j.
Proof.
  intros Hj. unfold entry. rewrite list_lookup_fmap.
  destruct (M !! i) as [row |]; [| reflexivity]. simpl.
  now apply lookup_take_lt.
Qed.

(** X14. The transpose of a matrix of [I > 0] rows of [J] Numbers is a
    matrix of [J] rows of [I] Numbers whose entry [(j, i)] is the entry
    [(i, j)] of the argument. *)
Theorem transpose_entries (I J : nat) (M : list (list R)) :
  rect I J M -> (0 < I)%nat ->
  exists Mt, transpose M = Some Mt /\ rect J I Mt /\
    (forall i j, (i < I)%nat -> (j < J)%nat -> entry Mt j i = entry M i j).
Proof. apply transpose_rect. Qed.

Lemma transpose_entries_witness :
  exists Mt, transpose [[1; 2; 3]; [4; 5; 6]] = Some Mt /\ rect 3 2 Mt /\
    (forall i j, (i < 2)%nat -> (j < 3)%nat ->
                 entry Mt j i = entry [[1; 2; 3]; [4; 5; 6]] i j).
Proof.
  apply (transpose_entries 2 3); [| lia].
  split; [reflexivity | repeat constructor].
Defined.

(** X15. [transpose] at the edges: the empty matrix has no first row to
    measure; a non-empty matrix of empty rows transposes to the empty
    matrix (so transposing twice fails there); a row shorter than the first
    leaves an entry without a Number; and entries beyond the length of the
    first row are not read. *)
Theorem transpose_edges (M : list (list R)) (row0 : list R) :
  transpose [] = None /\
  (M !! 0%nat = Some row0 ->
   (Forall (fun row => row = []) M -> transpose M = Some []) /\
   (forall i row, M !! i = Some row -> (length row < length row0)%nat ->
                  transpose M = None) /\
   transpose M = transpose (take (length row0) <$> M)).
Proof.
  split; [reflexivity |]. intros Hrow0. split; [| split].
  - intros Hempty.
    assert (HM : rect (length M) 0 M).
    { split; [reflexivity |]. eapply Forall_impl; [exact Hempty |].
      now intros row ->. }
    assert (Hpos : (0 < length M)%nat) by (eapply lookup_lt_Some; eassumption).
    destruct (transpose_rect (length M) 0 M HM Hpos) as (Mt & HMt & [Hlen _] & _).
    rewrite HMt. f_equal. now apply nil_length_inv.
  - intros i row Hrow Hshort. unfold transpose. rewrite Hrow0. simpl.
    apply (for_range_fails _ _ i); [eapply lookup_lt_Some; eassumption |].
    intros Mt. apply (for_range_fails _ _ (length row)); [assumption |].
    intros Mt'. unfold entry. rewrite Hrow. simpl.
    rewrite (lookup_ge_None_2 row (length row)) by lia. reflexivity.
  - unfold transpose. rewrite list_lookup_fmap, Hrow0. simpl.
    rewrite length_fmap, length_take.
    replace (length row0 `min` length row0)%nat with (length row0) by lia.
    apply for_range_ext. intros i Mt Hi.
    apply for_range_ext. intros j Mt' Hj.
    now rewrite entry_take.
Qed.

(** ** Invariants of the perifocal state *)

(** X16. Where both are defined, the perifocal position and velocity have
    the angular momentum [h] they were computed from ([x vy - y vx = h]) and
    the specific energy [- mu^2 (1 - e^2) / (2 h^2)], whatever the true
    anomaly. *)
Theorem perifocal_state_invariants (h e nu mu : R) :
  h <> 0 -> mu <> 0 -> 1 + e * cos nu <> 0 ->
  exists x y vx vy,
    getRpqwFromHETht h e nu mu = Some [x; y; 0] /\
    getVpqwFromHETht h e nu mu = Some [vx; vy; 0] /\
    x * vy - y * vx = h /\
    (vx * vx + vy * vy) / 2 - mu / ((h * h / mu) / (1 + e * cos nu))
      = - (mu * mu * (1 - e * e)) / (2 * (h * h)).
Proof.
  intros Hh Hmu Hden. pose proof (unit_circle nu) as Hc.
  unfold getRpqwFromHETht, getVpqwFromHETht, js_div.
  destruct (decide (mu * (1 + e * cos nu) = 0)) as [Hz | _].
  { apply Rmult_integral in Hz. tauto. }
  destruct (decide (h = 0)); [contradiction |]. simpl.
  do 4 eexists. split; [reflexivity |]. split; [reflexivity |].
  set (c := cos nu) in *. set (s := sin nu) in *. clearbody c s.
  assert (Hs : s ^ 2 = 1 - c ^ 2) by nra.
  split.
  - field_simplify_eq; [| tauto]. rewrite Hs. ring.
  - field_simplify_eq; [| tauto]. rewrite Hs. ring.
Qed.

Lemma perifocal_state_invariants_witness :
  exists x y vx vy,
    getRpqwFromHETht 2 0 0 1 = Some [x; y; 0] /\
    getVpqwFromHETht 2 0 0 1 = Some [vx; vy; 0] /\
    x * vy - y * vx = 2 /\
    (vx * vx + vy * vy) / 2 - 1 / ((2 * 2 / 1) / (1 + 0 * cos 0))
      = - (1 * 1 * (1 - 0 * 0)) / (2 * (2 * 2)).
Proof. apply (perifocal_state_invariants 2 0 0 1); lra. Defined.

(** ** Angular momentum and the orbit equation *)

(** X17. For a positive semi-major axis and gravitational parameter: with
    an eccentricity of [[0, 1)], [getAngularMomentum] is positive with
    square [mu a (1 - e^2)], and the position computed from it lies at the
    distance [a (1 - e^2) / (1 + e cos nu)], between [a (1 - e)] and
    [a (1 + e)]; with an eccentricity above 1 there is no angular
    momentum. *)
Theorem orbit_equation (a_km e nu mu : R) :
  0 < a_km -> 0 < mu ->
  (0 <= e < 1 ->
   exists h x y,
     getAngularMomentum a_km e mu = Some h /\ 0 < h /\
     h * h = mu * a_km * (1 - e * e) /\
     getRpqwFromHETht h e nu mu = Some [x; y; 0] /\
     norm [x; y; 0] = Some (a_km * (1 - e * e) / (1 + e * cos nu)) /\
     a_km * (1 - e) <= a_km * (1 - e * e) / (1 + e * cos nu)
       <= a_km * (1 + e)) /\
  (1 < e -> getAngularMomentum a_km e mu = None).
Proof.
  intros Ha Hmu. split.
  - intros He. pose proof (one_plus_e_cos_pos e nu He) as Hd.
    pose proof (COS_bound nu) as [Hc1 Hc2].
    assert (Hpos : 0 < mu * a_km * (1 - e * e)).
    { apply Rmult_lt_0_compat; [apply Rmult_lt_0_compat |]; nra. }
    unfold getAngularMomentum, Math_sqrt.
    destruct (decide (mu * a_km * (1 - e * e) < 0)); [lra |].
    set (h := sqrt (mu * a_km * (1 - e * e))).
    assert (Hh : 0 < h) by now apply sqrt_lt_R0.
    assert (Hhh : h * h = mu * a_km * (1 - e * e)) by (apply sqrt_sqrt; lra).
    unfold getRpqwFromHETht, js_div.
    destruct (decide (mu * (1 + e * cos nu) = 0)); [nra |]. simpl.
    exists h. do 2 eexists. split; [reflexivity |]. split; [exact Hh |].
    split; [exact Hhh |]. split; [reflexivity |].
    set (c := h * h / (mu * (1 + e * cos nu))).
    assert (Hceq : c = a_km * (1 - e * e) / (1 + e * cos nu)).
    { unfold c. rewrite Hhh. field. lra. }
    assert (Hc : 0 <= c).
    { unfold c, Rdiv. apply Rmult_le_pos; [nra |].
      left. apply Rinv_0_lt_compat. nra. }
    split.
    + unfold norm, getDotProd, for_range. simpl.
      assert (Hsq : 0 + c * cos nu * (c * cos nu) + c * sin nu * (c * sin nu)
                    + 0 * 0 = c * c).
      { pose proof (unit_circle nu). nra. }
      rewrite Hsq. unfold Math_sqrt.
      destruct (decide (c * c < 0)); [nra |].
      rewrite sqrt_square by assumption. now rewrite Hceq.
    + assert (Hinv : 0 < / (1 + e * cos nu)) by (apply Rinv_0_lt_compat; lra).
      assert (Hx : a_km * (1 - e * e) / (1 + e * cos nu) * (1 + e * cos nu)
                   = a_km * (1 - e * e)) by (field; lra).
      set (q := a_km * (1 - e * e) / (1 + e * cos nu)) in *.
      assert (Hlo : 0 <= a_km * (1 - e) * (e * (1 - cos nu)))
        by (apply Rmult_le_pos; nra).
      assert (Hhi : 0 <= a_km * (1 + e) * (e * (1 + cos nu)))
        by (apply Rmult_le_pos; nra).
      split.
      * apply (Rmult_le_reg_r (1 + e * cos nu)); [lra |]. rewrite Hx. lra.
      * apply (Rmult_le_reg_r (1 + e * cos nu)); [lra |]. rewrite Hx. lra.
  - intros He. unfold getAngularMomentum, Math_sqrt.
    destruct (decide (mu * a_km * (1 - e * e) < 0)) as [_ | Hn];
      [reflexivity |].
    exfalso. apply Hn.
    assert (Hp : 0 < mu * a_km) by now apply Rmult_lt_0_compat.
    assert (Hneg : 0 < e * e - 1) by nra.
    pose proof (Rmult_lt_0_compat _ _ Hp Hneg). lra.
Qed.

Lemma orbit_equation_witness :
  (0 <= 0.5 < 1 ->
   exists h x y,
     getAngularMomentum 2 0.5 3 = Some h /\ 0 < h /\
     h * h = 3 * 2 * (1 - 0.5 * 0.5) /\
     getRpqwFromHETht h 0.5 1 3 = Some [x; y; 0] /\
     norm [x; y; 0] = Some (2 * (1 - 0.5 * 0.5) / (1 + 0.5 * cos 1)) /\
     2 * (1 - 0.5) <= 2 * (1 - 0.5 * 0.5) / (1 + 0.5 * cos 1)
       <= 2 * (1 + 0.5)) /\
  (1 < 0.5 -> getAngularMomentum 2 0.5 3 = None).
Proof. apply (orbit_equation 2 0.5 1 3); lra. Defined.

(** ** The true anomaly *)

Lemma div_mul_cancel (x d : R) : d <> 0 -> x / d * d = x.
Proof. intros Hd. field. exact Hd. Qed.

(** Sine and cosine of twice an arctangent. *)
Lemma double_atan (w : R) :
  exists s c, 0 < c /\ s * s + c * c = 1 /\ s = w * c /\
              sin (2 * atan w) = 2 * s * c /\
              cos (2 * atan w) = c * c - s * s.
Proof.
  exists (sin (atan w)), (cos (atan w)).
  pose proof (atan_bound w) as [Hlo Hhi].
  assert (Hc : 0 < cos (atan w)) by (apply cos_gt_0; lra).
  split; [exact Hc |]. split; [apply unit_circle |]. split.
  - pose proof (tan_atan w) as Ht. unfold tan in Ht.
    rewrite <- Ht at 2. field. lra.
  - split; [apply sin_2a | apply cos_2a].
Qed.

(** Off the poles of [tan (E/2)] the angle returned is the true anomaly. *)
Lemma true_anomaly_off_pole (E e : R) :
  0 <= e < 1 -> cos (E / 2) <> 0 ->
  exists nu,
    getTaFromEaE E e = Some nu /\ 0 <= nu < 2 * PI /\
    cos nu = (cos E - e) / (1 - e * cos E) /\
    sin nu = sqrt (1 - e * e) * sin E / (1 - e * cos E).
Proof.
  intros He Hpole.
  pose proof (one_minus_e_cos_pos e E He) as Hden.
  unfold getTaFromEaE. replace (0.5 * E) with (E / 2) by lra.
  unfold Math_tan, Math_sqrt.
  destruct (decide (cos (E / 2) = 0)); [contradiction |].
  destruct (decide (1 + e < 0)); [lra |].
  destruct (decide (1 - e < 0)); [lra |]. simpl.
  set (s1 := sqrt (1 + e)). set (s2 := sqrt (1 - e)).
  assert (Hs1 : s1 * s1 = 1 + e) by (apply sqrt_sqrt; lra).
  assert (Hs2 : s2 * s2 = 1 - e) by (apply sqrt_sqrt; lra).
  assert (Hs1p : 0 <= s1) by apply sqrt_pos.
  assert (Hs2p : 0 < s2) by (apply sqrt_lt_R0; lra).
  assert (Hs12 : sqrt (1 - e * e) = s1 * s2).
  { unfold s1, s2. rewrite <- sqrt_mult by lra. f_equal. ring. }
  unfold Math_atan2. destruct (decide (0 < s2)); [| contradiction].
  set (w := tan (E / 2) * s1 / s2).
  destruct (posmod_turn (2.0 * atan w)) as (nu & Hnu & Hrange & Hsin & Hcos).
  exists nu. split; [exact Hnu |]. split; [exact Hrange |].
  destruct (double_atan w) as (sp & cp & Hcp & Hunit & Hsp & Hsin2 & Hcos2).
  replace (2.0 * atan w) with (2 * atan w) in Hsin, Hcos by lra.
  rewrite Hcos, Hsin, Hcos2, Hsin2, Hs12.
  (* the half angle of [E] *)
  set (cq := cos (E / 2)) in *. set (sq := sin (E / 2)).
  assert (HunitE : sq * sq + cq * cq = 1) by apply unit_circle.
  assert (HcosE : cos E = cq * cq - sq * sq).
  { replace E with (2 * (E / 2)) at 1 by field. apply cos_2a. }
  assert (HsinE : sin E = 2 * sq * cq).
  { replace E with (2 * (E / 2)) at 1 by field. apply sin_2a. }
  assert (Hrel : sp * s2 * cq = sq * s1 * cp).
  { rewrite Hsp. unfold w, tan. fold sq cq. field. repeat split; (lra || assumption). }
  assert (Hrel2 : (1 + e) * (cp * cp) - (1 - e) * (cq * cq)
                  - 2 * e * (cp * cp) * (cq * cq) = 0).
  { assert (Hsq : (sp * s2 * cq) * (sp * s2 * cq)
                  = (sq * s1 * cp) * (sq * s1 * cp)) by now rewrite Hrel.
    assert (Hsp2 : sp * sp = 1 - cp * cp) by lra.
    assert (Hsq2 : sq * sq = 1 - cq * cq) by lra.
    replace ((sp * s2 * cq) * (sp * s2 * cq))
      with ((sp * sp) * (s2 * s2) * (cq * cq)) in Hsq by ring.
    replace ((sq * s1 * cp) * (sq * s1 * cp))
      with ((sq * sq) * (s1 * s1) * (cp * cp)) in Hsq by ring.
    rewrite Hsp2, Hsq2, Hs1, Hs2 in Hsq. lra. }
  rewrite HcosE, HsinE.
  assert (Hden' : 1 - e * (cq * cq - sq * sq) <> 0) by (rewrite <- HcosE; lra).
  split.
  - apply (Rmult_eq_reg_r (1 - e * (cq * cq - sq * sq))); [| exact Hden'].
    rewrite div_mul_cancel by exact Hden'.
    assert (Hsp2 : sp * sp = 1 - cp * cp) by lra.
    assert (Hsq2 : sq * sq = 1 - cq * cq) by lra.
    rewrite Hsp2, Hsq2. lra.
  - apply (Rmult_eq_reg_r (1 - e * (cq * cq - sq * sq))); [| exact Hden'].
    rewrite div_mul_cancel by exact Hden'.
    apply (Rmult_eq_reg_r cp); [| lra].
    assert (Hsq2 : sq * sq = 1 - cq * cq) by lra.
    rewrite Hsq2.
    transitivity (2 * sp * ((1 + e - 2 * e * (cq * cq)) * (cp * cp))); [ring |].
    replace ((1 + e - 2 * e * (cq * cq)) * (cp * cp))
      with ((1 - e) * (cq * cq)) by lra.
    rewrite <- Hs2.
    transitivity (2 * s2 * cq * (sp * s2 * cq)); [ring |].
    rewrite Hrel. ring.
Qed.

(** At a pole of [tan (E/2)] the angle returned is half a turn. *)
Lemma true_anomaly_at_pole (E e : R) :
  0 <= e < 1 -> cos (E / 2) = 0 ->
  exists nu,
    getTaFromEaE E e = Some nu /\ 0 <= nu < 2 * PI /\
    cos nu = (cos E - e) / (1 - e * cos E) /\
    sin nu = sqrt (1 - e * e) * sin E / (1 - e * cos E).
Proof.
  intros He Hpole.
  assert (HcosE : cos E = -1).
  { replace E with (2 * (E / 2)) by field. rewrite cos_2a, Hpole.
    pose proof (unit_circle (E / 2)) as Hu. rewrite Hpole in Hu. lra. }
  assert (HsinE : sin E = 0).
  { replace E with (2 * (E / 2)) by field. rewrite sin_2a, Hpole. ring. }
  unfold getTaFromEaE. replace (0.5 * E) with (E / 2) by lra.
  unfold Math_tan, Math_sqrt.
  destruct (decide (cos (E / 2) = 0)); [| contradiction].
  destruct (decide (1 + e < 0)); [lra |].
  destruct (decide (1 - e < 0)); [lra |]. rewrite bind_Some.
  assert (Hs1 : 0 < sqrt (1 + e)) by (apply sqrt_lt_R0; lra).
  unfold xmul. destruct (decide (sqrt (1 + e) = 0)); [lra |].
  rewrite !bind_Some. unfold Math_atan2x.
  set (ta := 2.0 * _).
  assert (Hta : sin ta = 0 /\ cos ta = -1).
  { unfold ta. destruct (xorb _ _).
    - replace (2.0 * - (PI / 2)) with (- PI) by lra.
      rewrite sin_neg, cos_neg, sin_PI, cos_PI. lra.
    - replace (2.0 * (PI / 2)) with PI by lra.
      rewrite sin_PI, cos_PI. lra. }
  destruct Hta as [Hsin Hcos].
  destruct (posmod_turn ta) as (nu & Hnu & Hrange & Hs & Hc).
  exists nu. split; [exact Hnu |]. split; [exact Hrange |].
  rewrite Hc, Hs, Hcos, Hsin, HcosE, HsinE. split; field; lra.
Qed.

(** X18. For an eccentricity of [[0, 1)] and every eccentric anomaly [E],
    the angle returned by [getTaFromEaE] is the true anomaly of [E]: it
    lies between [0] and [2 PI], its cosine is
    [(cos E - e) / (1 - e cos E)] and its sine
    [sqrt (1 - e^2) sin E / (1 - e cos E)]. *)
Theorem getTaFromEaE_true_anomaly (E e : R) :
  0 <= e < 1 ->
  exists nu,
    getTaFromEaE E e = Some nu /\ 0 <= nu <= 2 * PI /\
    cos nu = (cos E - e) / (1 - e * cos E) /\
    sin nu = sqrt (1 - e * e) * sin E / (1 - e * cos E).
Proof.
  intros He.
  assert (Hcases : exists nu,
    getTaFromEaE E e = Some nu /\ 0 <= nu < 2 * PI /\
    cos nu = (cos E - e) / (1 - e * cos E) /\
    sin nu = sqrt (1 - e * e) * sin E / (1 - e * cos E)).
  { destruct (Req_dec (cos (E / 2)) 0) as [Hpole | Hpole].
    - now apply true_anomaly_at_pole.
    - now apply true_anomaly_off_pole. }
  destruct Hcases as (nu & Hnu & Hrange & Hcos & Hsin).
  exists nu. repeat split; try assumption; lra.
Qed.

Lemma getTaFromEaE_true_anomaly_witness :
  exists nu,
    getTaFromEaE PI 0.5 = Some nu /\ 0 <= nu <= 2 * PI /\
    cos nu = (cos PI - 0.5) / (1 - 0.5 * cos PI) /\
    sin nu = sqrt (1 - 0.5 * 0.5) * sin PI / (1 - 0.5 * cos PI).
Proof. apply (getTaFromEaE_true_anomaly PI 0.5). lra. Defined.

(** ** What the solver returns *)

(** A small correction means a small residual of Kepler's equation. *)
Lemma residual_of_correction (M_rad e E : R) :
  0 <= e < 1 -> Rabs (correction M_rad e E) < tol ->
  Rabs (E - e * sin E - M_rad) < 2 * tol.
Proof.
  intros He Hsmall. pose proof (one_minus_e_cos_pos e E He) as Hden.
  pose proof (COS_bound E) as [Hc _].
  assert (Hf : E - e * sin E - M_rad
               = correction M_rad e E * (1 - e * cos E)).
  { unfold correction. field. lra. }
  rewrite Hf, Rabs_mult, (Rabs_pos_eq (1 - e * cos E)) by lra.
  pose proof (Rabs_pos (correction M_rad e E)) as Hpos.
  assert (Htol : 0 < tol) by (unfold tol; lra).
  assert (Hup : 1 - e * cos E <= 2) by nra.
  set (r := Rabs (correction M_rad e E)) in *.
  set (d := 1 - e * cos E) in *. clearbody r d.
  apply Rle_lt_trans with (r * 2); [| lra].
  apply Rmult_le_compat_l; lra.
Qed.

(** X19. For an eccentricity of [[0, 1)] the solver makes between 1 and
    [nMax + 1] passes and returns a Newton-Raphson iterate of the initial
    guess: when it stops converged, the iterate before the last pass, whose
    residual in Kepler's equation is below [2 tol]; otherwise the iterate
    number [nMax + 1]. *)
Theorem getEaFromMaE_run (M_rad e : R) :
  0 <= e < 1 ->
  exists st,
    solver_loop M_rad e (solver_init M_rad e) = Some st /\
    getEaFromMaE M_rad e = Some (E_rad st) /\
    (1 <= n st <= S nMax)%nat /\
    (isConverged st = true ->
     E_rad st = Nat.iter (pred (n st)) (newton M_rad e)
                  (initial_guess M_rad e) /\
     Rabs (E_rad st - e * sin (E_rad st) - M_rad) < 2 * tol) /\
    (isConverged st = false ->
     n st = S nMax /\
     E_rad st = Nat.iter (S nMax) (newton M_rad e) (initial_guess M_rad e)).
Proof.
  intros He.
  destruct (solver_init_run M_rad e He) as (st & Hrun & Hret & Hn & Hc & Hnc).
  exists st. repeat (split; [assumption |]). split; [| exact Hnc].
  intros Hconv. destruct (Hc Hconv) as [HE Hsmall].
  split; [exact HE |]. now apply residual_of_correction.
Qed.

Lemma getEaFromMaE_run_witness :
  exists st,
    solver_loop 0 0 (solver_init 0 0) = Some st /\
    getEaFromMaE 0 0 = Some (E_rad st) /\
    (1 <= n st <= S nMax)%nat /\
    (isConverged st = true ->
     E_rad st = Nat.iter (pred (n st)) (newton 0 0) (initial_guess 0 0) /\
     Rabs (E_rad st - 0 * sin (E_rad st) - 0) < 2 * tol) /\
    (isConverged st = false ->
     n st = S nMax /\
     E_rad st = Nat.iter (S nMax) (newton 0 0) (initial_guess 0 0)).
Proof. apply (getEaFromMaE_run 0 0). lra. Defined.

Lemma solver_circular (M_rad : R) : getEaFromMaE M_rad 0 = Some M_rad.
Proof.
  assert (He : 0 <= 0 < 1) by lra.
  assert (Hguess : initial_guess M_rad 0 = M_rad).
  { unfold initial_guess. destruct (decide (M_rad < PI)); lra. }
  assert (Hiter : forall k, Nat.iter k (newton M_rad 0) M_rad = M_rad).
  { induction k as [| k IH]; [reflexivity |].
    rewrite Nat.iter_succ, IH. unfold newton, correction. field; lra. }
  destruct (solver_init_run M_rad 0 He) as (st & _ & Hret & _ & Hc & Hnc).
  rewrite Hret. f_equal. rewrite Hguess in Hc, Hnc.
  destruct (isConverged st).
  - destruct (Hc eq_refl) as [-> _]. apply Hiter.
  - destruct (Hnc eq_refl) as [_ ->]. apply Hiter.
Qed.

(** X20. On a circular orbit the eccentric anomaly is the mean anomaly. *)
Theorem getEaFromMaE_circular (M_rad : R) : getEaFromMaE M_rad 0 = Some M_rad.
Proof.
  apply solver_circular.
Qed.

(** ** The state returned by the orchestrator *)

Lemma MU_SUN_pos : 0 < MU_SUN_KM3PS2.
Proof. unfold MU_SUN_KM3PS2. lra. Qed.

Lemma Math_sqrt_Some (x y : R) :
  Math_sqrt x = Some y -> 0 <= x /\ 0 <= y /\ y * y = x.
Proof.
  unfold Math_sqrt. destruct (decide (x < 0)); [discriminate |].
  intros [= <-]. split; [lra |]. split; [apply sqrt_pos |].
  apply sqrt_sqrt. lra.
Qed.

Lemma js_div_Some (a b c : R) : js_div a b = Some c -> b <> 0 /\ c = a / b.
Proof.
  unfold js_div. destruct (decide (b = 0)); [discriminate |].
  now intros [= <-].
Qed.

(** X21. Whenever the orchestrator returns a state and the interpolated
    semi-major axis is positive, the state obeys the vis-viva equation for
    the Sun: both vectors have a length, the distance [rr] is positive and
    the speed [vv] satisfies [vv^2 = mu (2 / rr - 1 / a)]. *)
Theorem getRvFromElementsDatetime_vis_viva (p : planetaryOrbitalElements)
  (dt : Date) (r v : list R) :
  getRvFromElementsDatetime p dt = Some (r, v) ->
  0 < interpolated_a_km p (julian_centuries_of dt) ->
  exists rr vv,
    norm r = Some rr /\ norm v = Some vv /\ 0 < rr /\
    vv * vv = MU_SUN_KM3PS2
              * (2 / rr - 1 / interpolated_a_km p (julian_centuries_of dt)).
Proof.
  intros Hrv Ha. pose proof MU_SUN_pos as Hmu.
  unfold getRvFromElementsDatetime in Hrv. cbv zeta in Hrv.
  set (T0 := julian_centuries_of dt) in *.
  set (a := interpolated_a_km p T0) in *.
  set (e := getCurrentElements (e p) (de p) T0) in *.
  set (mu := MU_SUN_KM3PS2) in *.
  apply option.bind_Some in Hrv as (inc & _ & Hrv).
  apply option.bind_Some in Hrv as (raan & _ & Hrv).
  apply option.bind_Some in Hrv as (lop & _ & Hrv).
  apply option.bind_Some in Hrv as (ml & _ & Hrv).
  apply option.bind_Some in Hrv as (h & Hh & Hrv).
  apply option.bind_Some in Hrv as (aop & _ & Hrv).
  apply option.bind_Some in Hrv as (M & _ & Hrv).
  apply option.bind_Some in Hrv as (E & _ & Hrv).
  apply option.bind_Some in Hrv as (tht & _ & Hrv).
  apply option.bind_Some in Hrv as (rP & HrP & Hrv).
  apply option.bind_Some in Hrv as (vP & HvP & Hrv).
  apply option.bind_Some in Hrv as (Q & HQ & Hrv).
  apply option.bind_Some in Hrv as (rH & HrH & Hrv).
  apply option.bind_Some in Hrv as (vH & HvH & Hrv).
  injection Hrv as <- <-.
  (* the angular momentum is positive, so the orbit is an ellipse *)
  apply Math_sqrt_Some in Hh as (Harg & Hh0 & Hhh).
  unfold getVpqwFromHETht in HvP.
  apply option.bind_Some in HvP as (cv & Hcv & HvP).
  apply js_div_Some in Hcv as [Hhne ->]. injection HvP as <-.
  unfold getRpqwFromHETht in HrP.
  apply option.bind_Some in HrP as (cr & Hcr & HrP).
  apply js_div_Some in Hcr as [Hden ->]. injection HrP as <-.
  assert (Hhpos : 0 < h) by lra.
  assert (Hecc : 0 < 1 - e * e).
  { assert (0 < h * h) by nra. rewrite Hhh in H.
    assert (0 < mu * a) by now apply Rmult_lt_0_compat. nra. }
  assert (Hcos : 0 < 1 + e * cos tht).
  { pose proof (COS_bound tht) as [Hc1 Hc2].
    destruct (Rle_or_lt 0 e); nra. }
  set (c := cos tht) in *. set (s := sin tht) in *.
  assert (Hunit : s * s + c * c = 1) by apply unit_circle.
  set (cr := h * h / (mu * (1 + e * c))) in *.
  assert (Hcr : 0 < cr).
  { unfold cr, Rdiv. apply Rmult_lt_0_compat; [nra |].
    apply Rinv_0_lt_compat. nra. }
  (* the rotation keeps the lengths *)
  destruct (Qpqw2eci_isometry raan inc aop [cr * c; cr * s; 0]
              [cr * c; cr * s; 0] eq_refl eq_refl)
    as (Q1 & r1 & r2 & HQ1 & Hr1 & Hr2 & _ & _ & Hdotr).
  rewrite HQ in HQ1. injection HQ1 as <-.
  rewrite HrH in Hr1, Hr2. injection Hr1 as <-. injection Hr2 as <-.
  destruct (Qpqw2eci_isometry raan inc aop
              [mu / h * - s; mu / h * (e + c); 0]
              [mu / h * - s; mu / h * (e + c); 0] eq_refl eq_refl)
    as (Q1 & v1 & v2 & HQ1 & Hv1 & Hv2 & _ & _ & Hdotv).
  rewrite HQ in HQ1. injection HQ1 as <-.
  rewrite HvH in Hv1, Hv2. injection Hv1 as <-. injection Hv2 as <-.
  assert (Hrr : getDotProd rH rH = Some (cr * cr)).
  { rewrite Hdotr. cbn. f_equal. nra. }
  assert (Hvv : getDotProd vH vH
                = Some ((mu / h) * (mu / h) * (1 + e * e + 2 * e * c))).
  { rewrite Hdotv. cbn. f_equal. nra. }
  exists cr, (sqrt ((mu / h) * (mu / h) * (1 + e * e + 2 * e * c))).
  assert (Hv2pos : 0 <= (mu / h) * (mu / h) * (1 + e * e + 2 * e * c)).
  { apply Rmult_le_pos; [nra |]. nra. }
  unfold norm. rewrite Hrr, Hvv. simpl. unfold Math_sqrt.
  destruct (decide (cr * cr < 0)); [nra |].
  destruct (decide (mu / h * (mu / h) * (1 + e * e + 2 * e * c) < 0)); [lra |].
  split; [now rewrite sqrt_square by lra |].
  split; [reflexivity |]. split; [exact Hcr |].
  rewrite sqrt_sqrt by assumption.
  assert (Ha' : a = h * h / (mu * (1 - e * e))).
  { rewrite Hhh. field. split; lra. }
  rewrite Ha'. unfold cr. field. repeat split; lra.
Qed.

Lemma posmod_zero : posmod 0 (2 * PI) = Some 0.
Proof.
  pose proof two_PI_pos as Hb.
  rewrite posmod_as_floor by assumption. f_equal. unfold Math_floor.
  rewrite (floor_of_quotient 0 (2 * PI) 0 Hb); lra.
Qed.

Lemma circular_state :
  exists r v, getRvFromElementsDatetime circular_elements epoch_date
              = Some (r, v).
Proof.
  unfold getRvFromElementsDatetime. cbv zeta.
  set (T0 := julian_centuries_of epoch_date). clearbody T0.
  assert (Hangle : getCurrentElements (0 * d2r) (0 / 3600 * d2r) T0 = 0)
    by (unfold getCurrentElements; lra).
  assert (He : getCurrentElements 0 0 T0 = 0)
    by (unfold getCurrentElements; lra).
  assert (Ha : interpolated_a_km circular_elements T0 = au2km).
  { unfold interpolated_a_km, getCurrentElements. simpl. lra. }
  simpl. rewrite Hangle, He, Ha, posmod_zero. rewrite !bind_Some.
  assert (Hpos : 0 < MU_SUN_KM3PS2 * au2km * (1 - 0 * 0)).
  { unfold MU_SUN_KM3PS2, au2km. lra. }
  unfold getAngularMomentum, Math_sqrt at 1.
  destruct (decide (MU_SUN_KM3PS2 * au2km * (1 - 0 * 0) < 0)); [lra |].
  rewrite bind_Some.
  set (h := sqrt (MU_SUN_KM3PS2 * au2km * (1 - 0 * 0))).
  assert (Hh : 0 < h) by now apply sqrt_lt_R0.
  unfold getAopFromLopRaan, getMaFromMlLop.
  replace (0 - 0) with 0 by lra. rewrite posmod_zero, !bind_Some.
  rewrite solver_circular, bind_Some.
  assert (Hta : exists tht, getTaFromEaE 0 0 = Some tht).
  { unfold getTaFromEaE, Math_tan, Math_sqrt.
    replace (0.5 * 0) with 0 by lra. rewrite cos_0.
    destruct (decide (1 = 0)); [lra |].
    destruct (decide (1 + 0 < 0)); [lra |].
    destruct (decide (1 - 0 < 0)); [lra |]. simpl.
    destruct (posmod_multiple
                (2.0 * Math_atan2 (tan 0 * sqrt (1 + 0)) (sqrt (1 - 0)))
                (2 * PI) two_PI_pos) as (k & -> & _). eauto. }
  destruct Hta as [tht ->]. rewrite bind_Some.
  unfold getRpqwFromHETht, getVpqwFromHETht, js_div.
  destruct (decide (MU_SUN_KM3PS2 * (1 + 0 * cos tht) = 0)).
  { unfold MU_SUN_KM3PS2 in *. lra. }
  destruct (decide (h = 0)); [lra |]. simpl.
  eexists. eexists. reflexivity.
Qed.

Lemma getRvFromElementsDatetime_vis_viva_witness :
  exists r v rr vv,
    getRvFromElementsDatetime circular_elements epoch_date = Some (r, v) /\
    norm r = Some rr /\ norm v = Some vv /\ 0 < rr /\
    vv * vv = MU_SUN_KM3PS2
              * (2 / rr - 1 / interpolated_a_km circular_elements
                                 (julian_centuries_of epoch_date)).
Proof.
  destruct circular_state as (r & v & Hrv).
  destruct (getRvFromElementsDatetime_vis_viva
              circular_elements epoch_date r v Hrv) as (rr & vv & H).
  - unfold interpolated_a_km, getCurrentElements, au2km. simpl. lra.
  - exists r, v, rr, vv. split; [exact Hrv | exact H].
Defined.
